(** * UDP transport of the DNS proxy: [proxy/server_udp.go]

    A shallow embedding of the four parts of the file
    - listener setup      ([createUDPListeners], [udpCreate]),
    - the ingestion loop  ([udpPacketLoop]),
    - the packet handler  ([udpHandlePacket]),
    - the responder       ([respondUDP]),
    and the properties of them that the specification states.

    Calls that leave the file (the [net] package, [proxyutil], [miekg/dns],
    [errorx], the resolver [handleDNSRequest]) are parameters of the
    development, gathered in two interfaces; every theorem holds for all
    behaviours of them, except where a hypothesis on one of them is
    written out. *)

From Stdlib Require Import ZArith Lia Bool.
From stdpp Require Import base decidable option list strings.

Open Scope Z_scope.

(** ** Values shared by all parts *)

Abbreviation bytes := (list Byte.byte) (only parsing).

(** [len(b)] of a Go slice, an [int]. *)
Definition len (b : bytes) : Z := Z.of_nat (length b).

(** [net.IP] is a byte slice; [net.UDPAddr] is a struct of three fields. *)
Abbreviation IP := (list Byte.byte) (only parsing).

Record UDPAddr := mkUDPAddr {
  ua_IP : IP;
  ua_Port : Z;
  ua_Zone : string
}.

(** A [*net.UDPConn] that is not nil: the handle of one socket. *)
Abbreviation UDPConn := nat (only parsing).

(** Go [error] values that are not nil.  An [error] variable of the Go code
    is an [option error], [None] being [nil].
    - [OpError op text] is an error handed out by the [net] package or by
      another library: [*net.OpError] with its operation and the text of
      the wrapped error;
    - [Decorate cause text] is [errorx.Decorate(cause, text)];
    - [Errorf format args] is [fmt.Errorf(format, args...)]. *)
Inductive error :=
| OpError (op text : string)
| Decorate (cause : error) (text : string)
| Errorf (format : string) (args : list Z).

Inductive result (A : Type) :=
| Ok (a : A)
| Err (e : error).
Arguments Ok {A} a.
Arguments Err {A} e.

(** [net.Conn] and [net.Addr] are interfaces: a value of one of them is nil,
    or has the UDP pointer type, or some other dynamic type.  A
    [*net.UDPAddr] may be a nil pointer inside a non-nil interface. *)
Inductive net_Conn :=
| Conn_nil
| Conn_UDP (c : UDPConn)
| Conn_other (network : string).

Inductive net_Addr :=
| Addr_nil
| Addr_UDP (a : option UDPAddr)
| Addr_other (network : string).

Inductive Proto := ProtoUDP | ProtoTCP | ProtoTLS | ProtoHTTPS.

(** A run of Go code either returns or panics. *)
Inductive panic :=
| NilDereference
| TypeAssertion.

Inductive outcome (A : Type) :=
| Returns (a : A)
| Panics (p : panic).
Arguments Returns {A} a.
Arguments Panics {A} p.

Definition is_fault {A} (o : outcome A) : bool :=
  match o with Panics _ => true | Returns _ => false end.

Definition is_decorated (e : option error) : bool :=
  match e with Some (Decorate _ _) => true | _ => false end.

Inductive level := Info | Tracef | Printf.

(** A log line: its level and its format string. *)
Definition log_entry : Type := level * string.

(** ** What the file takes from [miekg/dns] *)

Class DNSLib := {
  Msg : Type;                          (* dns.Msg *)
  Unpack : bytes -> result Msg;        (* Unpack method of dns.Msg *)
  Pack : Msg -> result bytes;          (* Pack method of dns.Msg *)
  MsgString : Msg -> string;           (* String method of dns.Msg *)
  MaxMsgSize : nat                     (* dns.MaxMsgSize *)
}.

(** [DNSContext], with the fields that [server_udp.go] reads or writes. *)
Record DNSContext `{DNSLib} := mkDNSContext {
  dc_Proto : Proto;
  dc_Req : option Msg;
  dc_Res : option Msg;
  dc_Addr : net_Addr;
  dc_Conn : net_Conn;
  dc_localIP : IP
}.

(** ** The sockets of the operating system, as listener setup sees them *)

Record socket := mkSocket {
  sk_laddr : option UDPAddr;     (* the address it was bound to *)
  sk_open : bool;                (* false once closed *)
  sk_rcvbuf : option Z;          (* receive buffer size, when it was set *)
  sk_oob : bool                  (* UDPSetOptions applied *)
}.

(** The handle of a socket is its index in [w_socks]. *)
Record world := mkWorld {
  w_socks : list socket;
  w_log : list log_entry
}.

(** One call of [proxyutil.UDPWrite], as the socket sees it. *)
Record write_call := mkWrite {
  wr_bytes : bytes;
  wr_conn : UDPConn;
  wr_rAddr : option UDPAddr;
  wr_localIP : IP
}.

(** ** What the file takes from [net] and [proxyutil]

    Whether a call fails, and with which error, is the operating system's
    choice; it may depend on everything done so far. *)
Class NetLib := {
  IsConnClosed : option error -> bool;                          (* proxyutil.IsConnClosed *)
  UDPWrite : bytes -> UDPConn -> option UDPAddr -> IP -> Z * option error;
                                                                (* proxyutil.UDPWrite *)
  ListenUDP_fails : world -> string -> option UDPAddr -> option error;
  SetReadBuffer_fails : world -> UDPConn -> Z -> option error;
  UDPSetOptions_fails : world -> UDPConn -> option error;
  Close_fails : world -> UDPConn -> option error
}.

(** ** A state monad over [world] for listener setup *)

Definition IO (A : Type) : Type := world -> A * world.

Definition io_ret {A} (a : A) : IO A := fun w => (a, w).

Definition io_bind {A B} (c : IO A) (k : A -> IO B) : IO B :=
  fun w => let '(a, w') := c w in k a w'.

Notation "'let*' x := c 'in' k" := (io_bind c (fun x => k))
  (at level 10, x pattern, c at level 100, k at level 200).

Definition log_to (l : level) (format : string) : IO unit :=
  fun w => (tt, mkWorld (w_socks w) (w_log w ++ [(l, format)])).

Definition alter_socket (f : socket -> socket) (c : UDPConn) : IO unit :=
  fun w => (tt, mkWorld (alter f c (w_socks w)) (w_log w)).

Section Setup.
Context `{NetLib}.

(** [net.ListenUDP(network, laddr)]: a new open socket, or an error. *)
Definition ListenUDP (network : string) (laddr : option UDPAddr) : IO (result UDPConn) :=
  fun w =>
    match ListenUDP_fails w network laddr with
    | Some err => (Err err, w)
    | None =>
        (Ok (length (w_socks w)),
         mkWorld (w_socks w ++ [mkSocket laddr true None false]) (w_log w))
    end.

(** [udpListen.SetReadBuffer(size)]. *)
Definition SetReadBuffer (c : UDPConn) (size : Z) : IO (option error) :=
  fun w =>
    match SetReadBuffer_fails w c size with
    | Some err => (Some err, w)
    | None =>
        (None, snd (alter_socket
           (fun s => mkSocket (sk_laddr s) (sk_open s) (Some size) (sk_oob s)) c w))
    end.

(** [proxyutil.UDPSetOptions(c)]. *)
Definition UDPSetOptions (c : UDPConn) : IO (option error) :=
  fun w =>
    match UDPSetOptions_fails w c with
    | Some err => (Some err, w)
    | None =>
        (None, snd (alter_socket
           (fun s => mkSocket (sk_laddr s) (sk_open s) (sk_rcvbuf s) true) c w))
    end.

(** [udpListen.Close()]: the socket is released whatever is reported. *)
Definition Close (c : UDPConn) : IO (option error) :=
  fun w =>
    (Close_fails w c,
     snd (alter_socket (fun s => mkSocket (sk_laddr s) false (sk_rcvbuf s) (sk_oob s)) c w)).

(** The fields of [Proxy] that listener setup uses. *)
Record Proxy := mkProxy {
  UDPListenAddr : list (option UDPAddr);
  Config_UDPBufferSize : Z;
  udpListen : list UDPConn
}.

(** Lines 42-49 of [udpCreate]. *)
Definition udpCreate_options (udpListen : UDPConn) : IO (result UDPConn) :=
  let* err := UDPSetOptions udpListen in
  match err with
  | Some err =>
      let* _ := Close udpListen in
      io_ret (Err (Decorate err "udpSetOptions failed"))
  | None =>
      let* _ := log_to Info "Listening to udp://%s" in
      io_ret (Ok udpListen)
  end.

(** [udpCreate], lines 27-50. *)
Definition udpCreate (p : Proxy) (udpAddr : option UDPAddr) : IO (result UDPConn) :=
  let* _ := log_to Info "Creating the UDP server socket" in
  let* r := ListenUDP "udp" udpAddr in
  match r with
  | Err err => io_ret (Err (Decorate err "couldn't listen to UDP socket"))
  | Ok udpListen =>
      if Config_UDPBufferSize p >? 0 then
        let* err := SetReadBuffer udpListen (Config_UDPBufferSize p) in
        match err with
        | Some err =>
            let* _ := Close udpListen in
            io_ret (Err (Decorate err "setting UDP buffer size failed"))
        | None => udpCreate_options udpListen
        end
      else udpCreate_options udpListen
  end.

(** The [range] loop of [createUDPListeners] over the addresses left. *)
Fixpoint createUDPListeners_range (addrs : list (option UDPAddr)) (p : Proxy)
  : IO (option error * Proxy) :=
  match addrs with
  | [] => io_ret (None, p)
  | a :: rest =>
      let* r := udpCreate p a in
      match r with
      | Err err => io_ret (Some err, p)
      | Ok c =>
          createUDPListeners_range rest
            (mkProxy (UDPListenAddr p) (Config_UDPBufferSize p) (udpListen p ++ [c]))
      end
  end.

(** [createUDPListeners], lines 14-24. *)
Definition createUDPListeners (p : Proxy) : IO (option error * Proxy) :=
  createUDPListeners_range (UDPListenAddr p) p.

(** The world in which [udpCreate] calls [net.ListenUDP]. *)
Definition at_listen (w : world) : world :=
  snd (log_to Info "Creating the UDP server socket" w).

(** The world in which [udpCreate] goes on once [net.ListenUDP] succeeded. *)
Definition bound (a : option UDPAddr) (w : world) : world :=
  snd (ListenUDP "udp" a (at_listen w)).

Definition closed_in (w : world) (c : UDPConn) : Prop :=
  sk_open <$> (w_socks w !! c) = Some false.

Definition open_in (w : world) (c : UDPConn) : Prop :=
  sk_open <$> (w_socks w !! c) = Some true.

(** The socket of address [a] once [udpCreate] has set it up: bound, open,
    with the buffer size if a positive one is configured, and with the
    options. *)
Definition ready (p : Proxy) (a : option UDPAddr) : socket :=
  mkSocket a true
    (if Config_UDPBufferSize p >? 0 then Some (Config_UDPBufferSize p) else None)
    true.

(** The three texts with which [udpCreate] decorates an error. *)
Definition udpCreate_texts : list string :=
  ["couldn't listen to UDP socket";
   "setting UDP buffer size failed";
   "udpSetOptions failed"].

End Setup.

(** ** The responder: [respondUDP] *)

Section Responder.
Context `{DNSLib} `{NetLib}.

(** Lines 126-135: what is returned once the write has yielded [(n, err)]. *)
Definition write_verdict (n : Z) (err : option error) (b : bytes) : option error :=
  if (n =? 0) && IsConnClosed err then err
  else match err with
       | Some e => Some (Decorate e "udpWrite() returned error")
       | None =>
           if negb (n =? len b)
           then Some (Errorf "udpWrite() returned with %d != %d" [n; len b])
           else None
       end.

(** [respondUDP]: the value returned (or the panic) and the writes issued.
    - line 118: [resp.Pack()] reads fields of [resp], a nil [resp] panics;
    - lines 123-124: the two type assertions have no [, ok] form, a
      mismatch (or a nil interface) panics. *)
Definition respondUDP (d : DNSContext) : outcome (option error) * list write_call :=
  match dc_Res d with
  | None => (Panics NilDereference, [])
  | Some resp =>
      match Pack resp with
      | Err err =>
          (Returns (Some (Decorate err
             ("couldn't convert message into wire format: " +:+ MsgString resp))), [])
      | Ok b =>
          match dc_Conn d with
          | Conn_UDP conn =>
              match dc_Addr d with
              | Addr_UDP rAddr =>
                  let '(n, err) := UDPWrite b conn rAddr (dc_localIP d) in
                  (Returns (write_verdict n err b),
                   [mkWrite b conn rAddr (dc_localIP d)])
              | _ => (Panics TypeAssertion, [])
              end
          | _ => (Panics TypeAssertion, [])
          end
      end
  end.

(** The two type assertions of lines 123-124 succeed. *)
Definition udp_typed (d : DNSContext) : bool :=
  match dc_Conn d, dc_Addr d with
  | Conn_UDP _, Addr_UDP _ => true
  | _, _ => false
  end.

End Responder.

(** ** The concurrency gate *)

(** Modelled from the spec: the type [semaphore] is declared outside
    [server_udp.go].  The gate is a bounded counter of the slots held. *)
Record semaphore := mkSema {
  sem_max : nat;       (* configured maximum *)
  sem_held : nat       (* slots held: the in-flight count *)
}.

(** Modelled from the spec: [acquire] of [semaphore], declared outside
    [server_udp.go].  It takes one slot and suspends the caller while the
    gate is saturated ([None]: the caller cannot take the step yet). *)
Definition acquire (g : semaphore) : option semaphore :=
  if decide (sem_held g < sem_max g)%nat
  then Some (mkSema (sem_max g) (S (sem_held g)))
  else None.

(** Modelled from the spec: [release] of [semaphore], declared outside
    [server_udp.go].  It gives one slot back. *)
Definition release (g : semaphore) : semaphore :=
  mkSema (sem_max g) (pred (sem_held g)).

(** ** Byte buffers on the heap

    A Go slice is a reference; the buffers of the loop and of the handler
    tasks live in one store, and a slice is the address of its buffer. *)
Abbreviation addr := nat (only parsing).
Abbreviation heap := (list (list Byte.byte)) (only parsing).

Definition deref (h : heap) (a : addr) : bytes := default [] (h !! a).

(** [make([]byte, n)]: a fresh buffer of [n] zero bytes, at a new address. *)
Definition make (n : nat) (h : heap) : addr * heap :=
  (length h, h ++ [replicate n Byte.x00]).

(** [copy(dst, src)]: the first [min(len(dst), len(src))] bytes of [src]
    replace those of [dst]. *)
Definition copy (dst src : bytes) : bytes :=
  take (length dst `min` length src) src ++ drop (length dst `min` length src) dst.

(** ** The packet handler and the ingestion loop *)

Section Loop.
Context `{DNSLib} `{NetLib}.

(** What one call of [p.handleDNSRequest(d)] did: the datagrams it sent to
    the peer and the error it returned. *)
Record handled := mkHandled {
  hd_sent : list bytes;
  hd_err : option error
}.

(** [udpHandlePacket], lines 90-112, for one behaviour [handleDNSRequest]
    of the resolver: the datagrams sent and the lines logged. *)
Definition udpHandlePacket (handleDNSRequest : DNSContext -> handled)
    (packet : bytes) (localIP : IP) (remoteAddr : option UDPAddr) (conn : UDPConn)
  : list bytes * list log_entry :=
  match Unpack packet with
  | Err err =>
      ([], [(Tracef, "Start handling new UDP packet from %s");
            (Printf, "error handling UDP packet: %s")])
  | Ok msg =>
      let d := {| dc_Proto := ProtoUDP;
                  dc_Req := Some msg;
                  dc_Res := None;
                  dc_Addr := Addr_UDP remoteAddr;
                  dc_Conn := Conn_UDP conn;
                  dc_localIP := localIP |} in
      let r := handleDNSRequest d in
      (hd_sent r,
       (Tracef, "Start handling new UDP packet from %s") ::
       match hd_err r with
       | Some _ => [(Tracef, "error handling DNS (%s) request: %s")]
       | None => []
       end)
  end.

(** What one call of [proxyutil.UDPRead(conn, b, p.udpOOBSize)] is given by
    the socket: the payload of a datagram (empty when there is none), the
    addresses, and the error. *)
Record datagram := mkDatagram {
  dg_payload : bytes;
  dg_localIP : IP;
  dg_remoteAddr : option UDPAddr;
  dg_err : option error
}.

(** Modelled from the spec: [proxyutil.UDPRead] is outside
    [server_udp.go].  The bytes received are the payload, as much of it as
    fits in [b]; their number is the [n] that the read yields. *)
Definition stored (b payload : bytes) : bytes := take (length b) payload.

(** Modelled from the spec: [proxyutil.UDPRead] is outside
    [server_udp.go].  The read puts the bytes received in front of [b] and
    leaves the rest of [b] as it was. *)
Definition overwrite (b payload : bytes) : bytes :=
  stored b payload ++ drop (length (stored b payload)) b.

(** The locals [n, localIP, remoteAddr, err] of one iteration. *)
Record locals := mkLocals {
  lc_n : Z;
  lc_localIP : IP;
  lc_remoteAddr : option UDPAddr;
  lc_err : option error
}.

(** Where the loop stands, by the line it executes next. *)
Inductive loop_pc :=
| AtRLock                                 (* line 59 *)
| AtCheck                                 (* line 60 *)
| AtRUnlock                               (* line 63 *)
| AtRead                                  (* line 65, before the call *)
| AtReading                               (* line 65, inside UDPRead *)
| AtCopy (l : locals)                     (* lines 70-71 *)
| AtAcquire (l : locals) (packet : addr)  (* line 72 *)
| AtGo (l : locals) (packet : addr)       (* line 73 *)
| AtErr (l : locals)                      (* line 78 *)
| Returned.                               (* left the function *)

(** Where a handler goroutine (lines 73-76) stands. *)
Inductive task_pc :=
| AtHandle        (* line 74 *)
| AtRelease       (* line 75 *)
| Finished.

(** A handler goroutine with the variables its closure captured. *)
Record task := mkTask {
  t_packet : addr;
  t_localIP : IP;
  t_remoteAddr : option UDPAddr;
  t_conn : UDPConn;
  t_pc : task_pc
}.

(** History of a run; the program never reads it. *)
Record history := mkHistory {
  h_received : list bytes;   (* the bytes stored by each read, oldest first *)
  h_checks : nat;            (* flag checks that found the flag true *)
  h_late_reads : nat;        (* reads begun while the flag was false *)
  h_acquired : nat;          (* calls of acquire that returned *)
  h_released : nat           (* calls of release *)
}.

(** The state of one loop, its handler goroutines and what they share. *)
Record state := mkState {
  p_started : bool;                (* p.started *)
  p_rlocks : nat;                  (* read locks held on p *)
  conn_open : bool;                (* the socket is not closed *)
  conn : UDPConn;
  gate : semaphore;                (* requestGoroutinesSema *)
  mem : heap;
  buf : addr;                      (* [b], the read buffer of line 57 *)
  pc : loop_pc;
  tasks : list task;
  sent : list (nat * bytes);       (* datagrams sent, with the task that sent *)
  logged : list log_entry;
  hist : history
}.

(** The state on entry of the [for] statement: the flag is set, line 57 has
    allocated [b], nothing else is on the heap. *)
Definition init (c : UDPConn) (max : nat) : state :=
  {| p_started := true; p_rlocks := 0; conn_open := true; conn := c;
     gate := mkSema max 0;
     mem := snd (make MaxMsgSize []); buf := fst (make MaxMsgSize []);
     pc := AtRLock; tasks := []; sent := [];
     logged := [(Info, "Entering the UDP listener loop on %s")];
     hist := mkHistory [] 0 0 0 0 |}.

Definition set_pc (x : loop_pc) (s : state) : state :=
  mkState (p_started s) (p_rlocks s) (conn_open s) (conn s) (gate s) (mem s) (buf s)
          x (tasks s) (sent s) (logged s) (hist s).
Definition set_rlocks (x : nat) (s : state) : state :=
  mkState (p_started s) x (conn_open s) (conn s) (gate s) (mem s) (buf s)
          (pc s) (tasks s) (sent s) (logged s) (hist s).
Definition set_started (x : bool) (s : state) : state :=
  mkState x (p_rlocks s) (conn_open s) (conn s) (gate s) (mem s) (buf s)
          (pc s) (tasks s) (sent s) (logged s) (hist s).
Definition set_conn_open (x : bool) (s : state) : state :=
  mkState (p_started s) (p_rlocks s) x (conn s) (gate s) (mem s) (buf s)
          (pc s) (tasks s) (sent s) (logged s) (hist s).
Definition set_gate (x : semaphore) (s : state) : state :=
  mkState (p_started s) (p_rlocks s) (conn_open s) (conn s) x (mem s) (buf s)
          (pc s) (tasks s) (sent s) (logged s) (hist s).
Definition set_mem (x : heap) (s : state) : state :=
  mkState (p_started s) (p_rlocks s) (conn_open s) (conn s) (gate s) x (buf s)
          (pc s) (tasks s) (sent s) (logged s) (hist s).
Definition set_tasks (x : list task) (s : state) : state :=
  mkState (p_started s) (p_rlocks s) (conn_open s) (conn s) (gate s) (mem s) (buf s)
          (pc s) x (sent s) (logged s) (hist s).
Definition set_sent (x : list (nat * bytes)) (s : state) : state :=
  mkState (p_started s) (p_rlocks s) (conn_open s) (conn s) (gate s) (mem s) (buf s)
          (pc s) (tasks s) x (logged s) (hist s).
Definition add_log (x : list log_entry) (s : state) : state :=
  mkState (p_started s) (p_rlocks s) (conn_open s) (conn s) (gate s) (mem s) (buf s)
          (pc s) (tasks s) (sent s) (logged s ++ x) (hist s).
Definition set_hist (x : history) (s : state) : state :=
  mkState (p_started s) (p_rlocks s) (conn_open s) (conn s) (gate s) (mem s) (buf s)
          (pc s) (tasks s) (sent s) (logged s) x.

Definition note_check (h : history) : history :=
  mkHistory (h_received h) (S (h_checks h)) (h_late_reads h) (h_acquired h) (h_released h).
Definition note_call (late : bool) (h : history) : history :=
  mkHistory (h_received h) (h_checks h)
            (if late then S (h_late_reads h) else h_late_reads h)
            (h_acquired h) (h_released h).
Definition note_read (got : bytes) (h : history) : history :=
  mkHistory (h_received h ++ [got]) (h_checks h) (h_late_reads h)
            (h_acquired h) (h_released h).
Definition note_acquire (h : history) : history :=
  mkHistory (h_received h) (h_checks h) (h_late_reads h) (S (h_acquired h)) (h_released h).
Definition note_release (h : history) : history :=
  mkHistory (h_received h) (h_checks h) (h_late_reads h) (h_acquired h) (S (h_released h)).

Definition set_tpc (x : task_pc) (t : task) : task :=
  mkTask (t_packet t) (t_localIP t) (t_remoteAddr t) (t_conn t) x.

(** One statement of [udpPacketLoop], lines 58-86; of line 65 it is the
    call of [UDPRead], which then blocks.  [None]: the loop cannot move (it
    waits at [acquire] or inside [UDPRead], or the function has returned). *)
Definition loop_step (s : state) : option state :=
  match pc s with
  | AtRLock =>
      Some (set_pc AtCheck (set_rlocks (S (p_rlocks s)) s))
  | AtCheck =>
      if negb (p_started s)
      then Some (set_pc Returned s)
      else Some (set_pc AtRUnlock (set_hist (note_check (hist s)) s))
  | AtRUnlock =>
      Some (set_pc AtRead (set_rlocks (pred (p_rlocks s)) s))
  | AtRead =>
      Some (set_pc AtReading (set_hist (note_call (negb (p_started s)) (hist s)) s))
  | AtReading => None
  | AtCopy l =>
      let '(packet, m) := make (Z.to_nat (lc_n l)) (mem s) in
      let m' := <[packet := copy (deref m packet) (deref m (buf s))]> m in
      Some (set_pc (AtAcquire l packet) (set_mem m' s))
  | AtAcquire l packet =>
      match acquire (gate s) with
      | Some g =>
          Some (set_pc (AtGo l packet) (set_gate g (set_hist (note_acquire (hist s)) s)))
      | None => None
      end
  | AtGo l packet =>
      let t := mkTask packet (lc_localIP l) (lc_remoteAddr l) (conn s) AtHandle in
      Some (set_pc (AtErr l) (set_tasks (tasks s ++ [t]) s))
  | AtErr l =>
      match lc_err l with
      | Some err =>
          let line :=
            if IsConnClosed (Some err)
            then "udpListen.ReadFrom() returned because we're reading from a closed connection, exiting loop"
            else "got error when reading from UDP listen: %s" in
          Some (set_pc Returned (add_log [(Info, line)] s))
      | None => Some (set_pc AtRLock s)
      end
  | Returned => None
  end.

(** Line 65: [UDPRead] returns with what the socket gives, and line 67
    tests [n > 0]. *)
Definition read_step (dg : datagram) (s : state) : option state :=
  match pc s with
  | AtReading =>
      let old := deref (mem s) (buf s) in
      let got := stored old (dg_payload dg) in
      let l := mkLocals (len got) (dg_localIP dg) (dg_remoteAddr dg) (dg_err dg) in
      let s1 := set_mem (<[buf s := overwrite old (dg_payload dg)]> (mem s)) s in
      let s2 := set_hist (note_read got (hist s)) s1 in
      Some (set_pc (if lc_n l >? 0 then AtCopy l else AtErr l) s2)
  | _ => None
  end.

(** One statement of the goroutine of lines 73-76 that was launched as the
    [i]-th one; [handleDNSRequest] is what the resolver does in this call. *)
Definition task_step (i : nat) (handleDNSRequest : DNSContext -> handled) (s : state)
  : option state :=
  match tasks s !! i with
  | Some t =>
      match t_pc t with
      | AtHandle =>
          let '(out, lines) :=
            udpHandlePacket handleDNSRequest (deref (mem s) (t_packet t))
                            (t_localIP t) (t_remoteAddr t) (t_conn t) in
          Some (set_tasks (<[i := set_tpc AtRelease t]> (tasks s))
                  (set_sent (sent s ++ (pair i <$> out)) (add_log lines s)))
      | AtRelease =>
          Some (set_tasks (<[i := set_tpc Finished t]> (tasks s))
                  (set_gate (release (gate s)) (set_hist (note_release (hist s)) s)))
      | Finished => None
      end
  | None => None
  end.

(** Modelled from the spec: shutdown is outside [server_udp.go].  It writes
    the running flag once, under the exclusive lock, which it can take only
    while no read lock is held. *)
Definition stop_step (s : state) : option state :=
  if decide (p_rlocks s = 0%nat) then
    if p_started s then Some (set_started false s) else None
  else None.

(** Modelled from the spec: shutdown is outside [server_udp.go].  Its other
    act is to close the socket. *)
Definition close_step (s : state) : option state :=
  Some (set_conn_open false s).

(** What can happen next: a statement of the loop, the return of the read,
    a statement of a handler goroutine, or one of the two acts of shutdown. *)
Inductive event :=
| Loop
| Read (dg : datagram)
| Task (i : nat) (handleDNSRequest : DNSContext -> handled)
| Stop
| CloseConn.

Definition step (e : event) (s : state) : option state :=
  match e with
  | Loop => loop_step s
  | Read dg => read_step dg s
  | Task i h => task_step i h s
  | Stop => stop_step s
  | CloseConn => close_step s
  end.

(** A schedule is run from left to right; [None] when one of its events
    cannot happen in the state reached. *)
Fixpoint run (evs : list event) (s : state) : option state :=
  match evs with
  | [] => Some s
  | e :: rest =>
      match step e s with
      | Some s' => run rest s'
      | None => None
      end
  end.

Definition reachable (c : UDPConn) (max : nat) (s : state) : Prop :=
  exists evs, run evs (init c max) = Some s.

(** The handler goroutines that have been launched and have not released
    their slot. *)
Definition running (t : task) : bool :=
  match t_pc t with Finished => false | _ => true end.

Definition in_flight (s : state) : nat := length (List.filter running (tasks s)).

(** The bytes that each handler goroutine holds, in launch order. *)
Definition packets (s : state) : list bytes :=
  (fun t => deref (mem s) (t_packet t)) <$> tasks s.

Definition nonempty (x : bytes) : bool :=
  match x with [] => false | _ => true end.

(** The datagram that the loop has read and not yet handed to a goroutine. *)
Definition pending (s : state) : list bytes :=
  match pc s with
  | AtCopy l => [take (Z.to_nat (lc_n l)) (deref (mem s) (buf s))]
  | AtAcquire _ packet | AtGo _ packet => [deref (mem s) packet]
  | _ => []
  end.

(** 1 while the loop holds a slot for a goroutine it has not launched. *)
Definition at_go (s : state) : nat :=
  match pc s with AtGo _ _ => 1 | _ => 0 end.

(** 1 between a flag check that found the flag true and the return of the
    read after it. *)
Definition checked (s : state) : nat :=
  match pc s with AtRUnlock | AtRead | AtReading => 1 | _ => 0 end.

(** 1 between such a check and the call of the read. *)
Definition before_read (s : state) : nat :=
  match pc s with AtRUnlock | AtRead => 1 | _ => 0 end.

(** The loop is past the read of an iteration and before its end. *)
Definition dispatching (l : locals) (s : state) : Prop :=
  match pc s with
  | AtCopy l' | AtAcquire l' _ | AtGo l' _ | AtErr l' => l' = l
  | Returned => True
  | _ => False
  end.

(** ** What holds in every state of a run *)

(** The gate and its history agree with the goroutines launched. *)
Definition gate_inv (max : nat) (s : state) : Prop :=
  sem_max (gate s) = max
  /\ (sem_held (gate s) <= max)%nat
  /\ sem_held (gate s) = (in_flight s + at_go s)%nat
  /\ h_acquired (hist s) = (length (tasks s) + at_go s)%nat
  /\ (h_released (hist s) + in_flight s)%nat = length (tasks s).

(** An address other than that of [b], and allocated. *)
Definition owned (s : state) (a : addr) : Prop :=
  a <> buf s /\ (a < length (mem s))%nat.

(** The buffers of the goroutines are their own, and hold the bytes of the
    reads that returned [n > 0], in order. *)
Definition mem_inv (s : state) : Prop :=
  (buf s < length (mem s))%nat
  /\ Forall (fun t => owned s (t_packet t)) (tasks s)
  /\ match pc s with
     | AtCopy l =>
         (0 < Z.to_nat (lc_n l) <= length (deref (mem s) (buf s)))%nat
     | AtAcquire _ packet | AtGo _ packet => owned s packet
     | _ => True
     end
  /\ packets s ++ pending s = List.filter nonempty (h_received (hist s)).

(** The read lock is held between lines 59 and 63 only (or at the return of
    line 61); every read has its check; at most one read begins after the
    flag was cleared. *)
Definition flow_inv (s : state) : Prop :=
  match pc s with
  | AtCheck | AtRUnlock => p_rlocks s = 1%nat
  | Returned => (p_rlocks s <= 1)%nat
  | _ => p_rlocks s = 0%nat
  end
  /\ h_checks (hist s) = (length (h_received (hist s)) + checked s)%nat
  /\ if p_started s then h_late_reads (hist s) = 0%nat
     else (h_late_reads (hist s) + before_read s <= 1)%nat.

(** The goroutine launched as the [i]-th one holds bytes that decode. *)
Definition decodes (s : state) (i : nat) : Prop :=
  exists t m, tasks s !! i = Some t /\ Unpack (deref (mem s) (t_packet t)) = Ok m.

(** What was sent was sent for a packet that decodes. *)
Definition sent_inv (s : state) : Prop :=
  Forall (fun ix => decodes s (fst ix)) (sent s).

(** All of it. *)
Definition all_inv (max : nat) (s : state) : Prop :=
  gate_inv max s /\ mem_inv s /\ flow_inv s /\ sent_inv s.

(** The read buffer keeps the size of line 57, and no read stores more. *)
Definition size_inv (s : state) : Prop :=
  length (deref (mem s) (buf s)) = MaxMsgSize
  /\ Forall (fun x : bytes => (length x <= MaxMsgSize)%nat) (h_received (hist s)).

(** 1 while the loop holds a buffer for a goroutine it has not launched. *)
Definition allocated (s : state) : nat :=
  match pc s with AtAcquire _ _ | AtGo _ _ => 1 | _ => 0 end.

(** Buffers are allocated one after the other: [b] first, then one for
    each goroutine, in launch order. *)
Definition alloc_inv (s : state) : Prop :=
  buf s = 0%nat
  /\ t_packet <$> tasks s = seq 1 (length (tasks s))
  /\ length (mem s) = (1 + length (tasks s) + allocated s)%nat
  /\ match pc s with
     | AtAcquire _ packet | AtGo _ packet => packet = S (length (tasks s))
     | _ => True
     end.

(** The context of lines 100-106, which [udpHandlePacket] hands to the
    resolver. *)
Definition request_context (msg : Msg) (localIP : IP) (remoteAddr : option UDPAddr)
    (c : UDPConn) : DNSContext :=
  {| dc_Proto := ProtoUDP;
     dc_Req := Some msg;
     dc_Res := None;
     dc_Addr := Addr_UDP remoteAddr;
     dc_Conn := Conn_UDP c;
     dc_localIP := localIP |}.

(** [d.Res = res], the assignment with which a resolver answers. *)
Definition set_Res (res : option Msg) (d : DNSContext) : DNSContext :=
  {| dc_Proto := dc_Proto d;
     dc_Req := dc_Req d;
     dc_Res := res;
     dc_Addr := dc_Addr d;
     dc_Conn := dc_Conn d;
     dc_localIP := dc_localIP d |}.

End Loop.

(** ** Small instances of the two interfaces, for examples *)

(** A codec whose messages are their own wire format: decoding needs the
    twelve bytes of a header, encoding fails above sixteen bytes. *)
Definition demo_dns : DNSLib := {|
  Msg := bytes;
  Unpack := fun p =>
    if decide (12 <= length p)%nat then Ok p
    else Err (OpError "unpack" "dns: overflow unpacking uint16");
  Pack := fun m =>
    if decide (length m <= 16)%nat then Ok m
    else Err (OpError "pack" "dns: buffer size too small");
  MsgString := fun _ => ";; opcode: QUERY";
  MaxMsgSize := 16
|}.

(** A network whose write yields [w], and whose [SetReadBuffer] and
    [UDPSetOptions] yield [setbuf] and [setopt]. *)
Definition demo_net (w : Z * option error) (setbuf setopt : option error) : NetLib := {|
  IsConnClosed := fun e =>
    match e with
    | Some (OpError _ text) => bool_decide (text = "use of closed network connection")
    | _ => false
    end;
  UDPWrite := fun _ _ _ _ => w;
  ListenUDP_fails := fun _ _ _ => None;
  SetReadBuffer_fails := fun _ _ _ => setbuf;
  UDPSetOptions_fails := fun _ _ => setopt;
  Close_fails := fun _ _ => None
|}.

Definition quiet_net : NetLib := demo_net (0, None) None None.

Definition closed_error : error := OpError "write" "use of closed network connection".

Definition peer : UDPAddr := mkUDPAddr [Byte.x0a; Byte.x00; Byte.x00; Byte.x01] 5353 "".

Definition query12 : bytes := replicate 12 Byte.x01.

(** A context as [udpHandlePacket] builds it, with the response [res]. *)
Definition demo_context (res : option bytes) : @DNSContext demo_dns :=
  @mkDNSContext demo_dns ProtoUDP (Some query12) res (Addr_UDP (Some peer)) (Conn_UDP 0%nat) [].

(** A network on which [SetReadBuffer] fails. *)
Definition setbuf_error : error := OpError "setsockopt" "operation not permitted".

Definition stingy_net : NetLib := demo_net (0, None) (Some setbuf_error) None.

Definition demo_proxy : Proxy := mkProxy [Some peer] 4096 [].

Definition empty_world : world := mkWorld [] [].

(** Datagrams: a query, the same query delivered with an error, and a
    packet of two bytes, which does not decode. *)
Definition query_dg : datagram := mkDatagram query12 [] (Some peer) None.

Definition query_err_dg : datagram :=
  mkDatagram query12 [] (Some peer) (Some closed_error).

Definition short_dg : datagram :=
  mkDatagram [Byte.x01; Byte.x02] [] (Some peer) None.

(** A resolver that answers with the query and reports no error. *)
Definition echo : @DNSContext demo_dns -> handled :=
  fun d => mkHandled (match dc_Req d with Some m => [m] | None => [] end) None.

(** Runs of one loop on socket 0 with a gate of one slot. *)
Definition demo_run (evs : list (@event demo_dns)) : option state :=
  @run demo_dns quiet_net evs (@init demo_dns 0%nat 1%nat).

(** One iteration up to inside [UDPRead]. *)
Definition to_read : list (@event demo_dns) := [Loop; Loop; Loop; Loop].

(** The lines 70-73 of an iteration. *)
Definition dispatch : list (@event demo_dns) := [Loop; Loop; Loop].

(** A network on which a second socket cannot be bound. *)
Definition bind_error : error := OpError "listen" "address already in use".

Definition crowded_net : NetLib := {|
  IsConnClosed := fun _ => false;
  UDPWrite := fun _ _ _ _ => (0, None);
  ListenUDP_fails := fun w _ _ =>
    if decide (length (w_socks w) = 1%nat) then Some bind_error else None;
  SetReadBuffer_fails := fun _ _ _ => None;
  UDPSetOptions_fails := fun _ _ => None;
  Close_fails := fun _ _ => None
|}.

(** A proxy with the same address configured twice. *)
Definition twin_proxy : Proxy := mkProxy [Some peer; Some peer] 4096 [].

(** What a read yields when there is no datagram: nothing, or nothing and
    the error of a closed socket. *)
Definition empty_dg : datagram := mkDatagram [] [] None None.

Definition closed_dg : datagram := mkDatagram [] [] None (Some closed_error).

(** A resolver that answers with the query and reports an error. *)
Definition grumbling_echo : @DNSContext demo_dns -> handled :=
  fun d => mkHandled (match dc_Req d with Some m => [m] | None => [] end)
             (Some (OpError "exchange" "i/o timeout")).

(** * Properties *)

(** ** The responder *)

Section ResponderProperties.
Context `{DNSLib} `{NetLib}.

Lemma write_verdict_nil (n : Z) (b : bytes) :
  IsConnClosed None = false ->
  write_verdict n None b = None <-> n = len b.
Proof.
  intros Hnil. unfold write_verdict. rewrite Hnil, andb_false_r.
  destruct (Z.eqb_spec n (len b)); simpl; split; intros; congruence.
Qed.

(** C3. For a context with a response, [respondUDP] returns nil exactly
    when encoding succeeds, the write reports no error and the number of
    bytes written is the encoded length; a write without error of another
    number of bytes yields the [fmt.Errorf] short-write error, which is
    neither nil nor a decorated error; an encode failure yields the
    decorated encode error and no write is issued.  [IsConnClosed(nil)] is
    taken to be false. *)
Theorem respondUDP_success_iff (d : DNSContext) (resp : Msg) :
  IsConnClosed None = false ->
  dc_Res d = Some resp ->
  (fst (respondUDP d) = Returns None <->
     exists b c rAddr,
       Pack resp = Ok b /\ dc_Conn d = Conn_UDP c /\ dc_Addr d = Addr_UDP rAddr /\
       UDPWrite b c rAddr (dc_localIP d) = (len b, None))
  /\ (forall b c rAddr n,
       Pack resp = Ok b -> dc_Conn d = Conn_UDP c -> dc_Addr d = Addr_UDP rAddr ->
       UDPWrite b c rAddr (dc_localIP d) = (n, None) -> n <> len b ->
       let e := Errorf "udpWrite() returned with %d != %d" [n; len b] in
       fst (respondUDP d) = Returns (Some e) /\ is_decorated (Some e) = false)
  /\ (forall err,
       Pack resp = Err err ->
       respondUDP d =
         (Returns (Some (Decorate err
            ("couldn't convert message into wire format: " +:+ MsgString resp))), [])).
Proof.
  intros Hnil Hres. unfold respondUDP. rewrite Hres.
  split; [split|split; [intros b c rAddr n Hp Hc Ha Hw Hn; split; [|done]|]].
  - destruct (Pack resp) as [b|err]; [|discriminate].
    destruct (dc_Conn d) as [|c|]; try discriminate.
    destruct (dc_Addr d) as [|rAddr|]; try discriminate.
    destruct (UDPWrite b c rAddr (dc_localIP d)) as [n err] eqn:Hw. simpl.
    intros Hv. exists b, c, rAddr. repeat split.
    destruct err as [e|].
    + unfold write_verdict in Hv.
      destruct ((n =? 0) && IsConnClosed (Some e)); discriminate.
    + injection Hv as Hv. apply write_verdict_nil in Hv; [|done]. by subst.
  - intros (b & c & rAddr & -> & -> & -> & Hw). rewrite Hw. simpl.
    f_equal. by apply write_verdict_nil.
  - rewrite Hp, Hc, Ha, Hw. simpl. f_equal.
    unfold write_verdict. rewrite Hnil, andb_false_r.
    destruct (Z.eqb_spec n (len b)); [contradiction|done].
  - by intros err ->.
Qed.

(** C4. When the write reports an error: with zero bytes written and a
    closed-socket error, that error is returned as it is; in every other
    case the error is returned decorated. *)
Theorem respondUDP_write_error (d : DNSContext) (resp : Msg) (b : bytes)
    (c : UDPConn) (rAddr : option UDPAddr) (n : Z) (e : error) :
  dc_Res d = Some resp -> Pack resp = Ok b ->
  dc_Conn d = Conn_UDP c -> dc_Addr d = Addr_UDP rAddr ->
  UDPWrite b c rAddr (dc_localIP d) = (n, Some e) ->
  (n = 0 /\ IsConnClosed (Some e) = true ->
     fst (respondUDP d) = Returns (Some e))
  /\ (~ (n = 0 /\ IsConnClosed (Some e) = true) ->
     fst (respondUDP d) = Returns (Some (Decorate e "udpWrite() returned error"))).
Proof.
  intros Hres Hp Hc Ha Hw. unfold respondUDP.
  rewrite Hres, Hp, Hc, Ha, Hw. simpl. unfold write_verdict. split.
  - intros [-> ->]. done.
  - intros Hno. destruct (Z.eqb_spec n 0) as [->|]; simpl; [|done].
    destruct (IsConnClosed (Some e)); [|done]. by destruct Hno.
Qed.

(** C10, amended. [respondUDP] faults exactly when the response is nil, or
    encoding succeeded and the connection or the address is not of the UDP
    type.  It has no error return that reports a missing response or a
    wrong type: when it returns for a context whose connection or address
    is not of the UDP type, what it returns is the decorated encode error,
    and nothing was written. *)
Theorem respondUDP_fault_iff (d : DNSContext) :
  (is_fault (fst (respondUDP d)) = true <->
     dc_Res d = None \/
     exists resp b, dc_Res d = Some resp /\ Pack resp = Ok b /\ udp_typed d = false)
  /\ (forall r, fst (respondUDP d) = Returns r -> udp_typed d = false ->
       exists resp err,
         dc_Res d = Some resp /\ Pack resp = Err err /\
         respondUDP d =
           (Returns (Some (Decorate err
              ("couldn't convert message into wire format: " +:+ MsgString resp))), [])).
Proof.
  unfold respondUDP, udp_typed. split.
  - destruct (dc_Res d) as [resp|]; [|simpl; split; auto].
    destruct (Pack resp) as [b|err] eqn:Hp.
    + destruct (dc_Conn d) as [|c|], (dc_Addr d) as [|rAddr|]; simpl;
        try (split; [intros _; right; by exists resp, b | done]).
      destruct (UDPWrite b c rAddr (dc_localIP d)) as [n e]. simpl.
      split; [done|]. intros [|(? & ? & _ & _ & ?)]; done.
    + simpl. split; [done|]. intros [|(? & ? & [= <-] & ? & _)]; congruence.
  - intros r. destruct (dc_Res d) as [resp|]; [|done].
    destruct (Pack resp) as [b|err] eqn:Hp.
    + destruct (dc_Conn d) as [|c|], (dc_Addr d) as [|rAddr|]; simpl; try done.
    + intros _ _. by exists resp, err.
Qed.

End ResponderProperties.

(** C3 at a response of twelve bytes that is written in full. *)
Lemma respondUDP_success_iff_witness :
  let d := demo_context (Some query12) in
  fst (@respondUDP demo_dns (demo_net (12, None) None None) d) = Returns None <->
  exists b c rAddr,
    @Pack demo_dns query12 = Ok b /\ dc_Conn d = Conn_UDP c /\ dc_Addr d = Addr_UDP rAddr /\
    @UDPWrite (demo_net (12, None) None None) b c rAddr (dc_localIP d) = (len b, None).
Proof.
  apply (@respondUDP_success_iff demo_dns (demo_net (12, None) None None)
           (demo_context (Some query12)) query12); reflexivity.
Defined.

(** C4 at a write on a closed socket. *)
Lemma respondUDP_write_error_witness :
  fst (@respondUDP demo_dns (demo_net (0, Some closed_error) None None)
         (demo_context (Some query12))) = Returns (Some closed_error).
Proof.
  apply (@respondUDP_write_error demo_dns (demo_net (0, Some closed_error) None None)
           (demo_context (Some query12)) query12 query12 0%nat (Some peer) 0 closed_error);
    try reflexivity.
  split; reflexivity.
Defined.

(** C10 as stated fails: a response that cannot be encoded, on a context
    whose connection is not a UDP socket and whose address is nil, makes
    [respondUDP] return the encode error without a fault. *)
Lemma respondUDP_returns_without_udp_types :
  let d := @mkDNSContext demo_dns ProtoTCP (Some query12) (Some (replicate 17 Byte.x01))
             Addr_nil (Conn_other "tcp") [] in
  is_fault (fst (@respondUDP demo_dns quiet_net d)) = false
  /\ dc_Res d <> None /\ dc_Conn d = Conn_other "tcp" /\ dc_Addr d = Addr_nil.
Proof. repeat split. discriminate. Qed.

(** ** Listener setup *)

Section SetupProperties.
Context `{NetLib}.

Ltac oracle :=
  match goal with
  | |- context [ListenUDP_fails ?w ?n ?a] => destruct (ListenUDP_fails w n a) eqn:?
  | |- context [SetReadBuffer_fails ?w ?c ?z] => destruct (SetReadBuffer_fails w c z) eqn:?
  | |- context [UDPSetOptions_fails ?w ?c] => destruct (UDPSetOptions_fails w c) eqn:?
  | |- context [if ?x >? 0 then _ else _] => destruct (x >? 0) eqn:?
  end; simpl.

Lemma alter_new_socket (f : socket -> socket) (l : list socket) (x : socket) :
  alter f (length l) (l ++ [x]) = l ++ [f x].
Proof.
  induction l as [|y l IH]; simpl; [done|]. by rewrite <- IH.
Qed.

Lemma lookup_new_socket (l : list socket) (x : socket) :
  (l ++ [x]) !! length l = Some x.
Proof. rewrite lookup_app_r by lia. by rewrite Nat.sub_diag. Qed.

(** What a call of [udpCreate] leaves behind: the sockets that existed are
    untouched; on success one open socket was added and is returned; on
    failure the socket that was added, if any, is closed. *)
Lemma udpCreate_post (p : Proxy) (a : option UDPAddr) (w w' : world) (r : result UDPConn) :
  udpCreate p a w = (r, w') ->
  (forall c, (c < length (w_socks w))%nat -> w_socks w' !! c = w_socks w !! c)
  /\ match r with
     | Ok c =>
         c = length (w_socks w) /\ length (w_socks w') = S c /\ open_in w' c
     | Err _ =>
         length (w_socks w') = length (w_socks w)
         \/ (length (w_socks w') = S (length (w_socks w))
             /\ closed_in w' (length (w_socks w)))
     end.
Proof.
  unfold udpCreate, udpCreate_options, io_bind, io_ret, log_to, ListenUDP,
    SetReadBuffer, UDPSetOptions, Close, alter_socket, open_in, closed_in.
  simpl. repeat oracle.
  all: intros [= <- <-]; simpl.
  all: rewrite ?alter_new_socket, ?length_app; simpl.
  all: split; [intros c Hc; try done; by rewrite lookup_app_l by lia|].
  all: rewrite ?lookup_new_socket; simpl.
  all: first [by left | right; split; [lia|done] | repeat split; lia].
Qed.

(** [udpCreate] once [net.ListenUDP] has succeeded: the rest of the
    function runs on the new socket. *)
Lemma udpCreate_bound (p : Proxy) (a : option UDPAddr) (w : world) :
  ListenUDP_fails (at_listen w) "udp" a = None ->
  let c := length (w_socks w) in
  udpCreate p a w =
    (if Config_UDPBufferSize p >? 0 then
       let* err := SetReadBuffer c (Config_UDPBufferSize p) in
       match err with
       | Some err =>
           let* _ := Close c in
           io_ret (Err (Decorate err "setting UDP buffer size failed"))
       | None => udpCreate_options c
       end
     else udpCreate_options c) (bound a w)
  /\ w_socks (bound a w) = w_socks w ++ [mkSocket a true None false].
Proof.
  intros Hl c. unfold bound, udpCreate, io_bind at 1 2, ListenUDP.
  change (log_to Info "Creating the UDP server socket" w) with (tt, at_listen w).
  simpl. rewrite Hl. by simpl.
Qed.

Lemma createUDPListeners_range_post (addrs : list (option UDPAddr)) :
  forall (p p' : Proxy) (w w' : world) (r : option error),
  createUDPListeners_range addrs p w = ((r, p'), w') ->
  (length (w_socks w) <= length (w_socks w'))%nat
  /\ (forall c, c ∈ udpListen p -> c ∈ udpListen p')
  /\ (forall c, (length (w_socks w) <= c < length (w_socks w'))%nat ->
        c ∈ udpListen p' \/ closed_in w' c)
  /\ (forall err, r = Some err ->
        exists a q wk, a ∈ addrs
          /\ Config_UDPBufferSize q = Config_UDPBufferSize p
          /\ udpCreate q a wk = (Err err, w')).
Proof.
  induction addrs as [|a rest IH]; intros p p' w w' r; simpl.
  - unfold io_ret. intros [= <- <- <-]. repeat split; auto; [lia|done].
  - unfold io_bind. destruct (udpCreate p a w) as [[c|e] w1] eqn:Hc.
    + apply udpCreate_post in Hc as (_ & -> & Hlen & _).
      intros Hrest. apply IH in Hrest as (Hle & Hkeep & Hnew & Herr).
      simpl in *. repeat split.
      * lia.
      * intros c Hin. apply Hkeep, elem_of_app. by left.
      * intros c Hrange. destruct (decide (c = length (w_socks w))) as [->|].
        -- left. apply Hkeep, elem_of_app. right. by apply list_elem_of_singleton.
        -- apply Hnew. lia.
      * intros err Hr. destruct (Herr err Hr) as (a' & q & wk & ? & ? & ?).
        exists a', q, wk. repeat split; auto. apply elem_of_cons. by right.
    + unfold io_ret. intros [= <- <- <-].
      pose proof Hc as Hpost. apply udpCreate_post in Hpost as (_ & Hcl).
      repeat split; auto.
      * destruct Hcl as [->|[-> _]]; lia.
      * intros c Hrange. right.
        destruct Hcl as [Heq|[Heq Hcl]]; [lia|].
        replace c with (length (w_socks w)) by lia. done.
      * intros err [= ->]. exists a, p, w. repeat split; auto. apply elem_of_cons. by left.
Qed.

Lemma createUDPListeners_range_app (l1 l2 : list (option UDPAddr)) :
  forall (p : Proxy) (w : world),
  createUDPListeners_range (l1 ++ l2) p w =
    match createUDPListeners_range l1 p w with
    | ((None, p1), w1) => createUDPListeners_range l2 p1 w1
    | r => r
    end.
Proof.
  induction l1 as [|a l1 IH]; intros p w; simpl; [done|].
  unfold io_bind. destruct (udpCreate p a w) as [[c|e] w1]; [apply IH|done].
Qed.

(** C8. In [udpCreate], when the socket was created and applying the
    configured positive buffer size fails, or applying the socket options
    fails, that socket is closed and the error is returned decorated with
    the name of the step.  When [udpCreate] fails for an address after the
    addresses before it were set up, [createUDPListeners] returns that
    error at once: nothing is done for the addresses left.  When
    [createUDPListeners] returns an error, every socket created on the way
    is either kept in [p.udpListen] (set up in full for an earlier address)
    or closed. *)
Theorem setup_failure_closes_socket (p : Proxy) (w : world) :
  (forall a err,
     let c := length (w_socks w) in
     ListenUDP_fails (at_listen w) "udp" a = None ->
     Config_UDPBufferSize p > 0 ->
     SetReadBuffer_fails (bound a w) c (Config_UDPBufferSize p) = Some err ->
     exists w',
       udpCreate p a w = (Err (Decorate err "setting UDP buffer size failed"), w')
       /\ closed_in w' c)
  /\ (forall a err,
     let c := length (w_socks w) in
     let w2 := if Config_UDPBufferSize p >? 0
               then snd (SetReadBuffer c (Config_UDPBufferSize p) (bound a w))
               else bound a w in
     ListenUDP_fails (at_listen w) "udp" a = None ->
     (Config_UDPBufferSize p > 0 ->
      SetReadBuffer_fails (bound a w) c (Config_UDPBufferSize p) = None) ->
     UDPSetOptions_fails w2 c = Some err ->
     exists w',
       udpCreate p a w = (Err (Decorate err "udpSetOptions failed"), w')
       /\ closed_in w' c)
  /\ (forall before a rest p1 w1 err w',
     UDPListenAddr p = before ++ a :: rest ->
     createUDPListeners_range before p w = ((None, p1), w1) ->
     udpCreate p1 a w1 = (Err err, w') ->
     createUDPListeners p w = ((Some err, p1), w'))
  /\ (forall err p' w',
     createUDPListeners p w = ((Some err, p'), w') ->
     (exists a q wk, a ∈ UDPListenAddr p
        /\ Config_UDPBufferSize q = Config_UDPBufferSize p
        /\ udpCreate q a wk = (Err err, w'))
     /\ (forall c, (length (w_socks w) <= c < length (w_socks w'))%nat ->
          c ∈ udpListen p' \/ closed_in w' c)).
Proof.
  split; [|split; [|split]].
  - intros a err c Hl Hpos Hb.
    destruct (udpCreate_bound p a w Hl) as (-> & Hs). fold c in Hb |- *.
    destruct (Z.gtb_spec (Config_UDPBufferSize p) 0); [|lia].
    revert Hs Hb. generalize (bound a w). intros w1 Hs Hb.
    unfold io_bind, SetReadBuffer, Close, alter_socket, io_ret. rewrite Hb. simpl.
    eexists. split; [reflexivity|].
    unfold closed_in. simpl. subst c.
    by rewrite Hs, alter_new_socket, lookup_new_socket.
  - intros a err c w2 Hl Hb Ho.
    destruct (udpCreate_bound p a w Hl) as (-> & Hs). fold c in Hb |- *.
    subst w2. revert Hs Hb Ho. generalize (bound a w). intros w1 Hs Hb Ho.
    destruct (Z.gtb_spec (Config_UDPBufferSize p) 0) as [Hpos|Hneg].
    + unfold io_bind, SetReadBuffer, alter_socket in *.
      rewrite Hb in * by lia. simpl in *.
      unfold udpCreate_options, io_bind, UDPSetOptions, Close, alter_socket, io_ret.
      rewrite Ho. simpl.
      eexists. split; [reflexivity|].
      unfold closed_in. simpl. subst c.
      by rewrite Hs, !alter_new_socket, lookup_new_socket.
    + unfold udpCreate_options, io_bind, UDPSetOptions, Close, alter_socket, io_ret.
      rewrite Ho. simpl.
      eexists. split; [reflexivity|].
      unfold closed_in. simpl. subst c.
      by rewrite Hs, !alter_new_socket, lookup_new_socket.
  - intros before a rest p1 w1 err w' Haddrs Hbefore Hfail.
    unfold createUDPListeners. rewrite Haddrs, createUDPListeners_range_app, Hbefore.
    simpl. unfold io_bind. by rewrite Hfail.
  - intros err p' w' Hrun. unfold createUDPListeners in Hrun.
    apply createUDPListeners_range_post in Hrun as (_ & _ & Hnew & Herr).
    split; [by apply Herr|done].
Qed.

End SetupProperties.

(** ** The loop and its handler goroutines *)

Section LoopProperties.
Context `{DNSLib} `{NetLib}.

Lemma run_invariant (P : state -> Prop) :
  (forall e s s', P s -> step e s = Some s' -> P s') ->
  forall evs s s', P s -> run evs s = Some s' -> P s'.
Proof.
  intros Hstep evs. induction evs as [|e evs IH]; intros s s' Hs; simpl.
  - by intros [= <-].
  - destruct (step e s) as [s1|] eqn:He; [|done]. eauto.
Qed.

Lemma reachable_invariant (P : state -> Prop) (c : UDPConn) (max : nat) :
  P (init c max) ->
  (forall e s s', P s -> step e s = Some s' -> P s') ->
  forall s, reachable c max s -> P s.
Proof. intros Hi Hs s [evs Hrun]. eapply run_invariant; eauto. Qed.

Lemma run_app (evs1 evs2 : list event) (s : state) :
  run (evs1 ++ evs2) s = run evs1 s ≫= run evs2.
Proof.
  revert s. induction evs1 as [|e evs1 IH]; intros s; simpl; [done|].
  destruct (step e s); simpl; auto.
Qed.

Lemma reachable_run (c : UDPConn) (max : nat) (evs : list event) (s s' : state) :
  reachable c max s -> run evs s = Some s' -> reachable c max s'.
Proof.
  intros [evs0 Hrun0] Hrun. exists (evs0 ++ evs). rewrite run_app, Hrun0. done.
Qed.

(** Case analysis on one step: which statement was executed. *)
Ltac invert_step Hs :=
  match type of Hs with
  | step ?e ?s = Some ?s' =>
      let Hpc := fresh "Hpc" in
      destruct e as [|dg|i h| |]; simpl in Hs;
      [ unfold loop_step in Hs;
        destruct (pc s) as [| | | | |l|l pk|l pk|l|] eqn:Hpc; try discriminate Hs;
        [ | destruct (p_started s) eqn:?; simpl in Hs
          | | | | destruct (acquire (gate s)) as [g|] eqn:?; [|discriminate Hs]
          | | destruct (lc_err l) as [err|] eqn:? ]
      | unfold read_step in Hs;
        destruct (pc s) eqn:Hpc; try discriminate Hs
      | unfold task_step in Hs;
        let t := fresh "t" in
        destruct (tasks s !! i) as [t|] eqn:?; [|discriminate Hs];
        destruct (t_pc t) eqn:?;
        [ destruct (udpHandlePacket h (deref (mem s) (t_packet t)) (t_localIP t)
                      (t_remoteAddr t) (t_conn t)) as [out lines] eqn:?
        | | discriminate Hs ]
      | unfold stop_step in Hs;
        destruct (decide (p_rlocks s = 0%nat)); [|discriminate Hs];
        destruct (p_started s) eqn:?; [|discriminate Hs]
      | unfold close_step in Hs ];
      injection Hs as <-
  end.

(** *** The gate *)

Lemma in_flight_insert (ts : list task) (i : nat) (t t' : task) :
  ts !! i = Some t ->
  (length (List.filter running (<[i := t']> ts)) + (if running t then 1 else 0)
   = length (List.filter running ts) + (if running t' then 1 else 0))%nat.
Proof.
  revert i. induction ts as [|x ts IH]; intros [|i]; simpl; try done.
  - intros [= ->]. destruct (running t), (running t'); simpl; lia.
  - intros Hi. specialize (IH i Hi). destruct (running x); simpl; lia.
Qed.

Lemma in_flight_launch (ts : list task) (t : task) :
  running t = true ->
  length (List.filter running (ts ++ [t])) = S (length (List.filter running ts)).
Proof.
  intros Ht. rewrite List.filter_app, length_app. simpl. rewrite Ht. simpl. lia.
Qed.

Lemma gate_inv_step (max : nat) (e : event) (s s' : state) :
  gate_inv max s -> step e s = Some s' -> gate_inv max s'.
Proof.
  unfold gate_inv, in_flight, at_go.
  intros (Hmax & Hle & Hheld & Hacq & Hrel) Hs. invert_step Hs; simpl;
    rewrite ?Hpc in *; simpl in *.
  all: try (unfold acquire in *; case_decide; [|done]; simplify_eq; simpl).
  all: rewrite ?in_flight_launch, ?length_app, ?length_insert by done; simpl.
  all: try (destruct (len _ >? 0); simpl).
  all: try match goal with
       | Ht : tasks ?s0 !! _ = Some ?t, Hp : t_pc ?t = _
         |- context [<[_ := ?t']> (tasks ?s0)] =>
           pose proof (in_flight_insert _ _ _ t' Ht) as Hc;
           assert (running t = true) as Hrt by (unfold running; by rewrite Hp);
           rewrite Hrt in Hc; cbn [running set_tpc t_pc] in Hc
       end.
  all: repeat split; try done; lia.
Qed.

(** *** The buffers *)

Lemma deref_insert_eq (h : heap) (a : addr) (x : bytes) :
  (a < length h)%nat -> deref (<[a := x]> h) a = x.
Proof. intros Ha. unfold deref. by rewrite list_lookup_insert_eq. Qed.

Lemma deref_insert_ne (h : heap) (a a' : addr) (x : bytes) :
  a <> a' -> deref (<[a := x]> h) a' = deref h a'.
Proof. intros Ha. unfold deref. by rewrite list_lookup_insert_ne. Qed.

Lemma deref_app_l (h h' : heap) (a : addr) :
  (a < length h)%nat -> deref (h ++ h') a = deref h a.
Proof. intros Ha. unfold deref. by rewrite lookup_app_l. Qed.

Lemma deref_app_new (h : heap) (x : bytes) : deref (h ++ [x]) (length h) = x.
Proof.
  unfold deref. rewrite lookup_app_r by lia. by rewrite Nat.sub_diag.
Qed.

(** [copy] into a fresh buffer of [n] bytes yields the first [n] bytes of
    the source, when the source has that many. *)
Lemma copy_make (n : nat) (src : bytes) :
  (n <= length src)%nat -> copy (replicate n Byte.x00) src = take n src.
Proof.
  intros Hn. unfold copy. rewrite length_replicate, Nat.min_l by lia.
  rewrite drop_ge by (rewrite length_replicate; lia). by rewrite app_nil_r.
Qed.

(** The read leaves in [b] what it stored, in front. *)
Lemma take_overwrite (old payload : bytes) :
  take (length (stored old payload)) (overwrite old payload) = stored old payload.
Proof. unfold overwrite. by rewrite take_app_length. Qed.

Lemma length_overwrite (old payload : bytes) :
  length (overwrite old payload) = length old.
Proof.
  unfold overwrite, stored. rewrite length_app, length_drop, length_take. lia.
Qed.

Lemma nonempty_len (x : bytes) : nonempty x = (len x >? 0).
Proof.
  unfold len. destruct x; simpl; [done|]. symmetry. apply Z.gtb_lt. lia.
Qed.

Lemma packets_frame (m m' : heap) (ts ts' : list task) :
  Forall (fun t => deref m' (t_packet t) = deref m (t_packet t)) ts ->
  t_packet <$> ts' = t_packet <$> ts ->
  (fun t => deref m' (t_packet t)) <$> ts' = (fun t => deref m (t_packet t)) <$> ts.
Proof.
  intros Hm Hp.
  change ((deref m' ∘ t_packet) <$> ts' = (deref m ∘ t_packet) <$> ts).
  rewrite !list_fmap_compose, Hp, <- !list_fmap_compose.
  apply Forall_fmap_ext_1. done.
Qed.

Lemma fmap_packet_insert (ts : list task) (i : nat) (t : task) (x : task_pc) :
  ts !! i = Some t -> t_packet <$> <[i := set_tpc x t]> ts = t_packet <$> ts.
Proof.
  intros Hi. rewrite list_fmap_insert. simpl.
  apply list_insert_id. by rewrite list_lookup_fmap, Hi.
Qed.

Lemma mem_inv_init (c : UDPConn) (max : nat) : mem_inv (init c max).
Proof. unfold mem_inv. simpl. repeat split; auto. Qed.

Lemma packets_unchanged (s : state) (m' : heap) :
  Forall (fun t => owned s (t_packet t)) (tasks s) ->
  (forall a, owned s a -> deref m' a = deref (mem s) a) ->
  (fun t => deref m' (t_packet t)) <$> tasks s = packets s.
Proof.
  intros Hts Hm. apply packets_frame; [|done].
  eapply Forall_impl; [exact Hts|]. simpl. auto.
Qed.

Lemma packets_insert (m : heap) (ts : list task) (i : nat) (t : task) (x : task_pc) :
  ts !! i = Some t ->
  (fun t => deref m (t_packet t)) <$> <[i := set_tpc x t]> ts
  = (fun t => deref m (t_packet t)) <$> ts.
Proof.
  intros Hi. apply packets_frame; [by apply Forall_true|].
  by apply fmap_packet_insert.
Qed.

Lemma filter_nonempty_snoc (l : list bytes) (x : bytes) :
  List.filter nonempty (l ++ [x]) =
  List.filter nonempty l ++ (if len x >? 0 then [x] else []).
Proof. rewrite List.filter_app. simpl. by rewrite nonempty_len. Qed.

Lemma mem_inv_step (e : event) (s s' : state) :
  mem_inv s -> step e s = Some s' -> mem_inv s'.
Proof.
  unfold mem_inv, pending.
  intros (Hbuf & Hts & Hpcs & Hpk) Hs. invert_step Hs; simpl;
    rewrite ?Hpc in *; simpl in *.
  all: try (by repeat split).
  all: try (by unfold owned in *; simpl in *; intuition).
  - (* make and copy *)
    assert (forall a, owned s a ->
              deref (<[length (mem s) :=
                         copy (deref (mem s ++ [replicate (Z.to_nat (lc_n l)) Byte.x00])
                                 (length (mem s)))
                              (deref (mem s ++ [replicate (Z.to_nat (lc_n l)) Byte.x00])
                                 (buf s))]>
                       (mem s ++ [replicate (Z.to_nat (lc_n l)) Byte.x00])) a
              = deref (mem s) a) as Hframe.
    { intros a [_ Ha]. rewrite deref_insert_ne by lia. by apply deref_app_l. }
    unfold owned in *. simpl. rewrite length_insert, length_app. simpl.
    repeat split; try lia.
    + eapply Forall_impl; [exact Hts|]. simpl. intros t [? ?]. split; [done|lia].
    + unfold packets. simpl. rewrite packets_unchanged by done.
      rewrite <- Hpk. f_equal. f_equal.
      rewrite deref_insert_eq by (rewrite length_app; simpl; lia).
      rewrite deref_app_new. rewrite deref_app_l by lia. apply copy_make. lia.
  - (* go *)
    repeat split; auto.
    + apply Forall_app. split; [done|]. by apply Forall_singleton.
    + unfold packets in *. simpl. rewrite fmap_app. simpl.
      by rewrite app_nil_r.
  - (* read *)
    assert (forall a, owned s a ->
              deref (<[buf s := overwrite (deref (mem s) (buf s)) (dg_payload dg)]> (mem s)) a
              = deref (mem s) a) as Hframe.
    { intros a [Ha _]. by rewrite deref_insert_ne. }
    unfold owned in *. simpl. rewrite length_insert.
    unfold packets in *. simpl. rewrite packets_unchanged by done.
    rewrite filter_nonempty_snoc, <- Hpk, app_nil_r. unfold packets.
    set (got := stored (deref (mem s) (buf s)) (dg_payload dg)).
    assert (Z.to_nat (len got) = length got) as Hn by apply Nat2Z.id.
    destruct (Z.gtb_spec (len got) 0) as [Hpos|Hzero]; simpl.
    + rewrite Hn, deref_insert_eq by done.
      unfold got at 3. rewrite take_overwrite, length_overwrite.
      repeat split; auto; unfold len in *; try lia.
      unfold got, stored. rewrite length_take. lia.
    + rewrite app_nil_r. repeat split; auto.
  - (* handle *)
    unfold packets in *. simpl. erewrite packets_insert by done.
    repeat split; auto. apply Forall_insert; [done|].
    simpl. by eapply (Forall_lookup_1 _ _ _ _ Hts).
  - (* release *)
    unfold packets in *. simpl. erewrite packets_insert by done.
    repeat split; auto. apply Forall_insert; [done|].
    simpl. by eapply (Forall_lookup_1 _ _ _ _ Hts).
Qed.

(** *** The lock, the flag and the reads *)

Lemma flow_inv_step (e : event) (s s' : state) :
  flow_inv s -> step e s = Some s' -> flow_inv s'.
Proof.
  unfold flow_inv, checked, before_read.
  intros (Hlock & Hchk & Hlate) Hs. invert_step Hs; simpl;
    rewrite ?Hpc in *; simpl in *.
  all: try match goal with Hst : p_started _ = _ |- _ => rewrite Hst in * end.
  all: rewrite ?length_app; simpl.
  all: try (destruct (len _ >? 0); simpl).
  all: try (destruct (p_started s); simpl).
  all: try (destruct (pc s); simpl).
  all: repeat split; try done; try lia.
Qed.

(** *** What is sent *)

Lemma decodes_step (e : event) (s s' : state) (k : nat) :
  mem_inv s -> step e s = Some s' -> decodes s k -> decodes s' k.
Proof.
  unfold decodes. intros (Hbuf & Hts & _ & _) Hs (t & m & Ht & Hm).
  pose proof (Forall_lookup_1 _ _ _ _ Hts Ht) as [Hne Hlt]. simpl in *.
  invert_step Hs; simpl; try (by exists t, m).
  - exists t, m. split; [done|].
    rewrite deref_insert_ne by lia. by rewrite deref_app_l.
  - exists t, m. split; [|done]. by apply lookup_app_l_Some.
  - exists t, m. split; [done|]. by rewrite deref_insert_ne.
  - destruct (decide (i = k)) as [->|Hi].
    + eexists _, m. rewrite list_lookup_insert_eq by by eapply lookup_lt_Some.
      split; [done|]. simplify_eq. done.
    + exists t, m. by rewrite list_lookup_insert_ne.
  - destruct (decide (i = k)) as [->|Hi].
    + eexists _, m. rewrite list_lookup_insert_eq by by eapply lookup_lt_Some.
      split; [done|]. simplify_eq. done.
    + exists t, m. by rewrite list_lookup_insert_ne.
Qed.

Lemma udpHandlePacket_malformed (h : DNSContext -> handled) (packet : bytes)
    (localIP : IP) (remoteAddr : option UDPAddr) (c : UDPConn) (err : error) :
  Unpack packet = Err err ->
  fst (udpHandlePacket h packet localIP remoteAddr c) = [].
Proof. intros Hu. unfold udpHandlePacket. by rewrite Hu. Qed.

Lemma sent_inv_step (e : event) (s s' : state) :
  mem_inv s -> sent_inv s -> step e s = Some s' -> sent_inv s'.
Proof.
  unfold sent_inv. intros Hmem Hsent Hs.
  assert (forall k, decodes s k -> decodes s' k) as Hdec
    by (intros k; by eapply decodes_step).
  assert (Forall (fun ix => decodes s' (fst ix)) (sent s)) as Hold.
  { eapply Forall_impl; [exact Hsent|]. intros ix. apply Hdec. }
  revert Hdec Hold. invert_step Hs; simpl; intros Hdec Hold; try done.
  apply Forall_app. split; [done|].
  match goal with Ht : tasks s !! _ = Some ?t |- _ =>
    destruct (Unpack (deref (mem s) (t_packet t))) as [m|err] eqn:Hu end.
  - apply Forall_fmap, Forall_true. intros x. simpl.
    apply Hdec. by eexists _, m.
  - match goal with Hh : udpHandlePacket _ _ _ _ _ = (?out, _) |- _ =>
      pose proof (udpHandlePacket_malformed h _ (t_localIP t) (t_remoteAddr t)
                    (t_conn t) _ Hu) as Hout; rewrite Hh in Hout; simpl in Hout;
      subst out end.
    constructor.
Qed.

(** *** All of it, in every state that can be reached *)

Lemma all_inv_reachable (c : UDPConn) (max : nat) (s : state) :
  reachable c max s -> all_inv max s.
Proof.
  apply reachable_invariant.
  - unfold all_inv, gate_inv, flow_inv, sent_inv, in_flight, at_go, checked,
      before_read.
    simpl. repeat split; auto using mem_inv_init. lia.
  - intros e s0 s1 (Hg & Hm & Hf & Hse) Hs. unfold all_inv.
    split; [by eapply gate_inv_step|].
    split; [by eapply mem_inv_step|].
    split; [by eapply flow_inv_step|by eapply sent_inv_step].
Qed.

(** Once the loop has returned it stays so: it reads nothing more and the
    read locks held stay held. *)
Lemma returned_stays (evs : list event) (s s' : state) :
  pc s = Returned -> run evs s = Some s' ->
  pc s' = Returned /\ h_received (hist s') = h_received (hist s)
  /\ p_rlocks s' = p_rlocks s.
Proof.
  intros Hret Hrun.
  apply (run_invariant
           (fun x => pc x = Returned /\ h_received (hist x) = h_received (hist s)
                     /\ p_rlocks x = p_rlocks s))
    with (evs := evs) (s := s); auto.
  clear. intros e s0 s1 (Hpc0 & Hrec & Hlk) Hs.
  invert_step Hs; simpl; rewrite ?Hpc0 in *; try done.
Qed.

(** After a read that came with an error, the loop goes through lines
    70-78 and returns; it does not read again. *)
Lemma dispatching_step (l0 : locals) (r : list bytes) (e : event) (s s' : state) :
  lc_err l0 <> None ->
  dispatching l0 s /\ h_received (hist s) = r ->
  step e s = Some s' ->
  dispatching l0 s' /\ h_received (hist s') = r.
Proof.
  unfold dispatching. intros Herr [Hd Hr] Hs.
  invert_step Hs; simpl; rewrite ?Hpc in *; simpl in *; try done.
  all: try (by subst).
  all: try (by destruct (pc s)).
Qed.

(** C1. In every state that can be reached, the handler goroutines in
    flight are at most the slots held, which are at most the configured
    maximum.  A slot is acquired before each launch; the slots released are
    as many as the goroutines that have finished; a goroutine goes from its
    handler to the release whatever the handler did, releases one slot, and
    then does nothing more. *)
Theorem in_flight_bounded (c : UDPConn) (max : nat) (s : state) :
  reachable c max s ->
  sem_max (gate s) = max
  /\ (in_flight s <= sem_held (gate s) <= max)%nat
  /\ h_acquired (hist s) = (length (tasks s) + at_go s)%nat
  /\ (h_released (hist s) + in_flight s)%nat = length (tasks s)
  /\ sem_held (gate s) = (h_acquired (hist s) - h_released (hist s))%nat
  /\ (forall i h t, tasks s !! i = Some t ->
        match t_pc t with
        | AtHandle =>
            exists s', task_step i h s = Some s'
              /\ tasks s' !! i = Some (set_tpc AtRelease t)
              /\ gate s' = gate s
        | AtRelease =>
            exists s', task_step i h s = Some s'
              /\ tasks s' !! i = Some (set_tpc Finished t)
              /\ S (sem_held (gate s')) = sem_held (gate s)
        | Finished => task_step i h s = None
        end).
Proof.
  intros Hr. destruct (all_inv_reachable _ _ _ Hr) as ((Hmax & Hle & Hheld & Hacq & Hrel) & _).
  repeat split; try done; try lia.
  intros i h t Ht. unfold task_step. rewrite Ht.
  pose proof (lookup_lt_Some _ _ _ Ht) as Hlt.
  destruct (t_pc t) eqn:Hpc; [|eexists; repeat split|done].
  - destruct (udpHandlePacket _ _ _ _ _). eexists. repeat split.
    simpl. by apply list_lookup_insert_eq.
  - simpl. by apply list_lookup_insert_eq.
  - simpl. assert (running t = true) as Hrun by (unfold running; by rewrite Hpc).
    assert (0 < in_flight s)%nat; [|lia].
    unfold in_flight. apply list_elem_of_lookup_2, list_elem_of_In in Ht.
    assert (In t (List.filter running (tasks s))) as Hin
      by (apply List.filter_In; by split).
    destruct (List.filter running (tasks s)); [done|simpl; lia].
Qed.

(** C2. In every state that can be reached: no handler goroutine holds
    the address of the read buffer [b]; the goroutines launched hold, in
    launch order, exactly the bytes stored by the reads that returned
    [n > 0] (followed by the datagram being dispatched, if any), so that a
    later read changes none of them; line 70-71 allocates a new buffer of
    [n] bytes holding the first [n] bytes of [b]; and line 73 hands that
    buffer to the goroutine. *)
Theorem handler_owns_copy (c : UDPConn) (max : nat) (s : state) :
  reachable c max s ->
  (forall i t, tasks s !! i = Some t -> t_packet t <> buf s)
  /\ packets s ++ pending s = List.filter nonempty (h_received (hist s))
  /\ (forall dg s', read_step dg s = Some s' -> packets s' = packets s)
  /\ (forall l, pc s = AtCopy l ->
        exists s', loop_step s = Some s'
          /\ pc s' = AtAcquire l (length (mem s))
          /\ mem s !! length (mem s) = None
          /\ deref (mem s') (length (mem s))
             = take (Z.to_nat (lc_n l)) (deref (mem s) (buf s))
          /\ len (deref (mem s') (length (mem s))) = lc_n l
          /\ deref (mem s') (buf s') = deref (mem s) (buf s))
  /\ (forall l packet, pc s = AtGo l packet ->
        exists s', loop_step s = Some s'
          /\ tasks s' = tasks s ++
               [mkTask packet (lc_localIP l) (lc_remoteAddr l) (conn s) AtHandle]).
Proof.
  intros Hr.
  destruct (all_inv_reachable _ _ _ Hr) as (_ & (Hbuf & Hts & Hpcs & Hpk) & _).
  split; [|split; [done|split; [|split]]].
  - intros i t Ht. by destruct (Forall_lookup_1 _ _ _ _ Hts Ht).
  - intros dg s'. unfold read_step. destruct (pc s); try done.
    intros [= <-]. unfold packets at 1. simpl.
    apply packets_unchanged; [done|]. intros a [Ha _]. by rewrite deref_insert_ne.
  - intros l Hl. rewrite Hl in Hpcs. unfold loop_step. rewrite Hl. simpl.
    eexists. split; [done|]. simpl.
    rewrite deref_insert_eq by (rewrite length_app; simpl; lia).
    rewrite deref_insert_ne by lia.
    rewrite deref_app_new, !deref_app_l by lia.
    rewrite copy_make by lia.
    repeat split; try done.
    + apply lookup_ge_None. lia.
    + unfold len. rewrite length_take. lia.
  - intros l packet Hl. unfold loop_step. rewrite Hl. by eexists.
Qed.

(** With a free slot the loop goes from [acquire] through the [go]
    statement to the test of the error, the goroutine launched. *)
Lemma acquire_progress (c : UDPConn) (max : nat) (s : state) (l : locals) (packet : addr) :
  reachable c max s ->
  pc s = AtAcquire l packet ->
  (in_flight s < max)%nat ->
  exists s3,
    run [Loop; Loop] s = Some s3
    /\ pc s3 = AtErr l
    /\ tasks s3 = tasks s ++
         [mkTask packet (lc_localIP l) (lc_remoteAddr l) (conn s) AtHandle]
    /\ mem s3 = mem s /\ logged s3 = logged s.
Proof.
  intros Hr Hpc Hroom.
  destruct (all_inv_reachable _ _ _ Hr) as ((Hmax & Hle & Hheld & _) & _).
  unfold at_go in Hheld. rewrite Hpc, Nat.add_0_r in Hheld.
  simpl. unfold loop_step at 1, acquire. rewrite Hpc.
  case_decide; [|lia]. unfold loop_step. simpl.
  eexists. split; [reflexivity|]. by repeat split.
Qed.

(** C5. When a read returns [n > 0] bytes together with an error, the loop
    goes on at the copy, not at the error: its next statement copies the
    bytes received into a new buffer.  With a free slot its next three
    statements copy, acquire and launch the goroutine, and only then does
    it stand at the test of the error, with nothing logged yet; its next
    statement returns.  Without a free slot it waits at [acquire], and
    goes the same way as soon as a slot is free.  In every continuation it
    reads nothing more, and whenever it stands at the test of the error,
    or has returned, a handler goroutine holding the bytes of that
    datagram has been launched after those launched before. *)
Theorem datagram_with_error_dispatched (c : UDPConn) (max : nat) (s : state)
    (dg : datagram) (e : error) :
  reachable c max s ->
  pc s = AtReading ->
  dg_err dg = Some e ->
  stored (deref (mem s) (buf s)) (dg_payload dg) <> [] ->
  let got := stored (deref (mem s) (buf s)) (dg_payload dg) in
  exists s1 l,
    read_step dg s = Some s1
    /\ pc s1 = AtCopy l /\ lc_err l = Some e /\ lc_n l = len got
    /\ (exists s2, loop_step s1 = Some s2
          /\ pc s2 = AtAcquire l (length (mem s))
          /\ deref (mem s2) (length (mem s)) = got
          /\ tasks s2 = tasks s /\ logged s2 = logged s)
    /\ ((in_flight s < max)%nat ->
        exists s3 s4,
          run [Loop; Loop; Loop] s1 = Some s3
          /\ pc s3 = AtErr l
          /\ tasks s3 = tasks s ++
               [mkTask (length (mem s)) (dg_localIP dg) (dg_remoteAddr dg)
                       (conn s) AtHandle]
          /\ packets s3 = packets s ++ [got]
          /\ logged s3 = logged s
          /\ loop_step s3 = Some s4 /\ pc s4 = Returned /\ tasks s4 = tasks s3)
    /\ forall evs s2, run evs s1 = Some s2 ->
         dispatching l s2
         /\ h_received (hist s2) = h_received (hist s) ++ [got]
         /\ ((pc s2 = AtErr l \/ pc s2 = Returned) ->
             packets s2 = packets s ++ [got])
         /\ (forall packet, pc s2 = AtAcquire l packet -> (in_flight s2 < max)%nat ->
             exists s3, run [Loop; Loop] s2 = Some s3
               /\ pc s3 = AtErr l
               /\ tasks s3 = tasks s2 ++
                    [mkTask packet (dg_localIP dg) (dg_remoteAddr dg) (conn s2) AtHandle]
               /\ deref (mem s3) packet = got)
         /\ (pc s2 = AtErr l ->
             exists s4, loop_step s2 = Some s4 /\ pc s4 = Returned
               /\ tasks s4 = tasks s2).
Proof.
  intros Hr Hpc Herr Hgot got.
  destruct (all_inv_reachable _ _ _ Hr) as (_ & (_ & _ & _ & Hpk) & _).
  unfold pending in Hpk. rewrite Hpc, app_nil_r in Hpk.
  assert ((len got >? 0) = true) as Hpos.
  { rewrite <- nonempty_len. subst got. by destruct (stored _ _). }
  set (l := mkLocals (len got) (dg_localIP dg) (dg_remoteAddr dg) (dg_err dg)).
  destruct (read_step dg s) as [s1|] eqn:Hread;
    [|unfold read_step in Hread; by rewrite Hpc in Hread].
  pose proof Hread as Hs1.
  unfold read_step in Hs1. rewrite Hpc in Hs1. cbv zeta in Hs1.
  fold got in Hs1. cbn [lc_n] in Hs1. rewrite Hpos in Hs1. fold l in Hs1.
  injection Hs1 as Hs1. symmetry in Hs1.
  assert (pc s1 = AtCopy l
          /\ h_received (hist s1) = h_received (hist s) ++ [got]) as [Hpc1 Hrec1]
    by (by rewrite Hs1).
  assert (reachable c max s1) as Hr1.
  { eapply reachable_run; [done|]. instantiate (1 := [Read dg]).
    simpl. by rewrite Hread. }
  assert (forall evs s2, run evs s1 = Some s2 ->
            dispatching l s2
            /\ h_received (hist s2) = h_received (hist s) ++ [got]) as Hinv.
  { intros evs s2.
    apply (run_invariant
             (fun x => dispatching l x
                       /\ h_received (hist x) = h_received (hist s) ++ [got])).
    - intros e0 s0 s0'. apply dispatching_step. simpl. by rewrite Herr.
    - unfold dispatching. by rewrite Hpc1. }
  (* what the invariant of the buffers says in a continuation *)
  assert (forall evs s2, run evs s1 = Some s2 ->
            packets s2 ++ pending s2 = packets s ++ [got]) as Hheld.
  { intros evs s2 Hrun.
    assert (reachable c max s2) as Hr2 by (by eapply reachable_run).
    destruct (all_inv_reachable _ _ _ Hr2) as (_ & (_ & _ & _ & Hpk2) & _).
    destruct (Hinv evs s2 Hrun) as [_ Hrec].
    by rewrite Hrec, filter_nonempty_snoc, Hpos, <- Hpk in Hpk2. }
  (* the error is examined last *)
  assert (forall s2, pc s2 = AtErr l ->
            exists s4, loop_step s2 = Some s4 /\ pc s4 = Returned
              /\ tasks s4 = tasks s2) as Hexit.
  { intros s2 Hat. unfold loop_step. rewrite Hat. simpl. rewrite Herr.
    eexists. by repeat split. }
  (* the continuations *)
  assert (forall evs s2, run evs s1 = Some s2 ->
            dispatching l s2
            /\ h_received (hist s2) = h_received (hist s) ++ [got]
            /\ ((pc s2 = AtErr l \/ pc s2 = Returned) ->
                packets s2 = packets s ++ [got])
            /\ (forall packet, pc s2 = AtAcquire l packet ->
                (in_flight s2 < max)%nat ->
                exists s3, run [Loop; Loop] s2 = Some s3
                  /\ pc s3 = AtErr l
                  /\ tasks s3 = tasks s2 ++
                       [mkTask packet (dg_localIP dg) (dg_remoteAddr dg)
                               (conn s2) AtHandle]
                  /\ deref (mem s3) packet = got)
            /\ (pc s2 = AtErr l ->
                exists s4, loop_step s2 = Some s4 /\ pc s4 = Returned
                  /\ tasks s4 = tasks s2)) as Hcont.
  { intros evs s2 Hrun. destruct (Hinv evs s2 Hrun) as [Hd Hrec].
    pose proof (Hheld evs s2 Hrun) as Hpk2.
    split; [done|]. split; [done|]. split; [|split; [|by apply Hexit]].
    - intros Hat. unfold pending in Hpk2.
      destruct Hat as [Hat|Hat]; rewrite Hat in Hpk2; by rewrite app_nil_r in Hpk2.
    - intros packet Hat Hroom.
      assert (reachable c max s2) as Hr2 by (by eapply reachable_run).
      destruct (acquire_progress c max s2 l packet Hr2 Hat Hroom)
        as (s3 & Hrun3 & Hpc3 & Htasks3 & Hmem3 & _).
      exists s3. split; [done|]. split; [done|]. split; [done|].
      unfold pending in Hpk2. rewrite Hat in Hpk2.
      apply app_inj_tail in Hpk2 as [_ Hlast]. by rewrite Hmem3. }
  (* the copy *)
  assert (exists s2, loop_step s1 = Some s2
            /\ pc s2 = AtAcquire l (length (mem s))
            /\ tasks s2 = tasks s /\ logged s2 = logged s /\ conn s2 = conn s)
    as (s2 & Hcopy & Hpc2 & Htasks2 & Hlog2 & Hconn2).
  { rewrite Hs1. unfold loop_step. simpl. eexists. split; [reflexivity|].
    simpl. by rewrite length_insert. }
  assert (run [Loop] s1 = Some s2) as Hrun2 by (simpl; by rewrite Hcopy).
  pose proof (Hheld _ _ Hrun2) as Hpk2. unfold pending in Hpk2. rewrite Hpc2 in Hpk2.
  apply app_inj_tail in Hpk2 as [_ Hlast].
  exists s1, l. split; [done|]. split; [done|]. split; [done|]. split; [done|].
  split; [by exists s2|]. split; [|exact Hcont].
  (* with a free slot *)
  intros Hroom.
  destruct (Hcont _ _ Hrun2) as (_ & _ & _ & Hgo & _).
  destruct (Hgo _ Hpc2) as (s3 & Hrun3 & Hpc3 & Htasks3 & Hmem3).
  { unfold in_flight. by rewrite Htasks2. }
  assert (run [Loop; Loop; Loop] s1 = Some s3) as Hrun13
    by (simpl; rewrite Hcopy; exact Hrun3).
  destruct (Hexit s3 Hpc3) as (s4 & Hstep4 & Hpc4 & Htasks4).
  exists s3, s4. split; [done|]. split; [done|].
  split; [by rewrite Htasks3, Htasks2, Hconn2|].
  split; [by apply (Hcont _ _ Hrun13); left|].
  split; [|done].
  assert (reachable c max s2) as Hr2 by (by eapply reachable_run).
  destruct (acquire_progress c max s2 l _ Hr2 Hpc2) as (s3' & Hrun3' & _ & _ & _ & Hlog3).
  { unfold in_flight. by rewrite Htasks2. }
  rewrite Hrun3 in Hrun3'. injection Hrun3' as <-. by rewrite Hlog3.
Qed.


(** C7. Every datagram sent was sent by a goroutine whose packet decodes.
    A goroutine whose packet does not decode sends nothing when it runs its
    handler: it goes on to release its slot, and nothing of the loop
    changes, neither where it stands nor the flag, the lock, the gate, the
    buffers or the socket. *)
Theorem malformed_packet_dropped (c : UDPConn) (max : nat) (s : state) :
  reachable c max s ->
  (forall i x, (i, x) ∈ sent s -> decodes s i)
  /\ (forall i h t err,
       tasks s !! i = Some t -> t_pc t = AtHandle ->
       Unpack (deref (mem s) (t_packet t)) = Err err ->
       exists s', task_step i h s = Some s'
         /\ sent s' = sent s
         /\ tasks s' = <[i := set_tpc AtRelease t]> (tasks s)
         /\ pc s' = pc s /\ p_started s' = p_started s /\ p_rlocks s' = p_rlocks s
         /\ gate s' = gate s /\ mem s' = mem s /\ buf s' = buf s
         /\ conn_open s' = conn_open s /\ hist s' = hist s).
Proof.
  intros Hr. destruct (all_inv_reachable _ _ _ Hr) as (_ & _ & _ & Hsent).
  split.
  - intros i x Hin. unfold sent_inv in Hsent.
    rewrite Forall_forall in Hsent. apply (Hsent (i, x) Hin).
  - intros i h t err Ht Hpc Hu. unfold task_step. rewrite Ht, Hpc.
    unfold udpHandlePacket. rewrite Hu. eexists. split; [done|]. simpl.
    by rewrite app_nil_r.
Qed.

(** C9, as the code has it. Before every call of the read the read lock
    has been released; but when the check finds the flag false, the loop
    returns at line 61 with the read lock still held, and it stays held. *)
Theorem returns_holding_read_lock (c : UDPConn) (max : nat) (s : state) :
  reachable c max s ->
  (pc s = AtRead -> p_rlocks s = 0%nat)
  /\ (pc s = AtCheck -> p_started s = false ->
       exists s', loop_step s = Some s' /\ pc s' = Returned /\ p_rlocks s' = 1%nat
         /\ forall evs s'', run evs s' = Some s'' -> p_rlocks s'' = 1%nat).
Proof.
  intros Hr.
  destruct (all_inv_reachable _ _ _ Hr) as (_ & _ & (Hlock & _) & _).
  split.
  - intros Hpc. by rewrite Hpc in Hlock.
  - intros Hpc Hst. rewrite Hpc in Hlock. unfold loop_step. rewrite Hpc, Hst.
    eexists. repeat split; try done.
    intros evs s'' Hrun. apply returned_stays in Hrun as (_ & _ & ->); done.
Qed.

End LoopProperties.

(** ** The theorems at runs of the small instances *)

(** C8 at an address whose socket refuses the buffer size. *)
Lemma setup_failure_closes_socket_witness :
  exists w',
    @udpCreate stingy_net demo_proxy (Some peer) empty_world =
      (Err (Decorate setbuf_error "setting UDP buffer size failed"), w')
    /\ closed_in w' 0%nat.
Proof.
  apply (proj1 (@setup_failure_closes_socket stingy_net demo_proxy empty_world));
    reflexivity.
Defined.

(** C1 after one datagram was dispatched: one goroutine, one slot. *)
Lemma in_flight_bounded_witness :
  exists s, demo_run (to_read ++ [Read query_dg] ++ dispatch) = Some s
    /\ in_flight s = 1%nat
    /\ (in_flight s <= sem_held (gate s) <= 1)%nat.
Proof.
  eexists. split; [vm_compute; reflexivity|]. split; [reflexivity|].
  apply (@in_flight_bounded demo_dns quiet_net 0%nat 1%nat).
  exists (to_read ++ [Read query_dg] ++ dispatch). vm_compute. reflexivity.
Defined.

(** C2 after two datagrams were read: the goroutine of the first one still
    holds the first one. *)
Lemma handler_owns_copy_witness :
  exists s,
    demo_run (to_read ++ [Read query_dg] ++ dispatch ++ [Loop] ++
              to_read ++ [Read short_dg]) = Some s
    /\ @packets s ++ @pending s = [query12; [Byte.x01; Byte.x02]]
    /\ forall i t, tasks s !! i = Some t -> t_packet t <> buf s.
Proof.
  eexists. split; [vm_compute; reflexivity|]. split; [reflexivity|].
  apply (@handler_owns_copy demo_dns quiet_net 0%nat 1%nat).
  exists (to_read ++ [Read query_dg] ++ dispatch ++ [Loop] ++
          to_read ++ [Read short_dg]).
  vm_compute. reflexivity.
Defined.

(** C5 at a query delivered together with a closed-socket error, the gate
    free: the goroutine is launched with the query, then the loop returns. *)
Lemma datagram_with_error_dispatched_witness :
  exists s,
    demo_run to_read = Some s
    /\ exists s1 l s3 s4,
         @read_step query_err_dg s = Some s1
         /\ pc s1 = AtCopy l /\ lc_err l = Some closed_error
         /\ @run demo_dns quiet_net [Loop; Loop; Loop] s1 = Some s3
         /\ pc s3 = AtErr l /\ packets s3 = [query12]
         /\ @loop_step quiet_net s3 = Some s4 /\ pc s4 = Returned.
Proof.
  eexists. split; [vm_compute; reflexivity|].
  match goal with
  | |- exists s1 l s3 s4, read_step _ ?s0 = _ /\ _ =>
      edestruct (@datagram_with_error_dispatched demo_dns quiet_net 0%nat 1%nat s0)
        with (dg := query_err_dg) (e := closed_error)
        as (s1 & l & Hread & Hpc & Herr & _ & _ & Hfree & _)
  end.
  - exists to_read. vm_compute. reflexivity.
  - vm_compute. reflexivity.
  - reflexivity.
  - vm_compute. discriminate.
  - edestruct Hfree as (s3 & s4 & Hrun & Hpc3 & _ & Hpk & _ & Hstep & Hpc4 & _).
    + vm_compute. lia.
    + exists s1, l, s3, s4.
      split; [exact Hread|]. split; [exact Hpc|]. split; [exact Herr|].
      split; [exact Hrun|]. split; [exact Hpc3|]. split; [exact Hpk|].
      split; [exact Hstep|exact Hpc4].
Defined.



(** C7 at a packet of two bytes: its goroutine sends nothing, and the
    loop stands where it stood. *)
Lemma malformed_packet_dropped_witness :
  exists s s',
    demo_run (to_read ++ [Read short_dg] ++ dispatch) = Some s
    /\ @task_step demo_dns 0%nat echo s = Some s'
    /\ sent s' = [] /\ pc s' = pc s.
Proof.
  eexists.
  edestruct (@malformed_packet_dropped demo_dns quiet_net 0%nat 1%nat) as [_ Hdrop].
  - exists (to_read ++ [Read short_dg] ++ dispatch). vm_compute. reflexivity.
  - edestruct (Hdrop 0%nat echo) as (s' & Hstep & Hsent & _ & Hpc & _).
    + vm_compute. reflexivity.
    + vm_compute. reflexivity.
    + vm_compute. reflexivity.
    + exists s'. split; [vm_compute; reflexivity|]. split; [exact Hstep|].
      split; [exact Hsent|exact Hpc].
Defined.

(** C9 at a loop that starts after shutdown: it returns with the read lock
    held. *)
Lemma returns_holding_read_lock_witness :
  exists s s',
    demo_run [Stop; Loop] = Some s
    /\ @loop_step quiet_net s = Some s'
    /\ pc s' = Returned /\ p_rlocks s' = 1%nat.
Proof.
  eexists.
  edestruct (@returns_holding_read_lock demo_dns quiet_net 0%nat 1%nat) as [_ Hret].
  - exists [Stop; Loop]. vm_compute. reflexivity.
  - edestruct Hret as (s' & Hstep & Hpc & Hlk & _).
    + vm_compute. reflexivity.
    + vm_compute. reflexivity.
    + exists s'. split; [vm_compute; reflexivity|]. split; [exact Hstep|].
      split; [exact Hpc|exact Hlk].
Defined.

(** ** More on listener setup *)

Section SetupOutcomes.
Context `{NetLib}.

Ltac oracle :=
  match goal with
  | |- context [ListenUDP_fails ?w ?n ?a] => destruct (ListenUDP_fails w n a) eqn:?
  | |- context [SetReadBuffer_fails ?w ?c ?z] => destruct (SetReadBuffer_fails w c z) eqn:?
  | |- context [UDPSetOptions_fails ?w ?c] => destruct (UDPSetOptions_fails w c) eqn:?
  | |- context [if ?x >? 0 then _ else _] => destruct (x >? 0) eqn:?
  end; simpl.

(** X1. Whatever the operating system does, a call of [udpCreate] adds at
    most one socket and leaves the sockets that exist as they are.  On
    success the socket added is the one returned, bound to the address,
    open, with the options applied, and with the receive buffer set exactly
    when a positive size is configured.  On failure the error is decorated
    with one of the three step texts, and the socket added, if any, is
    closed. *)
Theorem udpCreate_outcome (p : Proxy) (a : option UDPAddr) (w w' : world)
    (r : result UDPConn) :
  udpCreate p a w = (r, w') ->
  match r with
  | Ok c =>
      c = length (w_socks w) /\ w_socks w' = w_socks w ++ [ready p a]
  | Err e =>
      (exists cause text, e = Decorate cause text /\ text ∈ udpCreate_texts)
      /\ (w_socks w' = w_socks w
          \/ exists sk, w_socks w' = w_socks w ++ [sk]
                /\ sk_open sk = false /\ sk_laddr sk = a)
  end.
Proof.
  unfold udpCreate, udpCreate_options, io_bind, io_ret, log_to, ListenUDP,
    SetReadBuffer, UDPSetOptions, Close, alter_socket, ready, udpCreate_texts.
  simpl. repeat oracle.
  all: intros [= <- <-]; simpl.
  all: rewrite ?alter_new_socket; simpl.
  all: try match goal with Hb : (_ >? 0) = _ |- _ => rewrite ?Hb end.
  all: try (split; [reflexivity|reflexivity]).
  all: split; [eexists _, _; split; [reflexivity|];
               repeat first [apply list_elem_of_here | apply list_elem_of_further]|].
  all: first [by left | right; eexists; repeat split].
Qed.

(** The [range] loop, whatever comes of it: the addresses split into
    those set up and those left; the sockets of the former were added, are
    as [udpCreate] left them, and are registered in order. *)
Lemma createUDPListeners_range_outcome (addrs : list (option UDPAddr)) :
  forall (p p' : Proxy) (w w' : world) (r : option error),
  createUDPListeners_range addrs p w = ((r, p'), w') ->
  UDPListenAddr p' = UDPListenAddr p
  /\ Config_UDPBufferSize p' = Config_UDPBufferSize p
  /\ exists before rest,
       addrs = before ++ rest
       /\ udpListen p' = udpListen p ++ seq (length (w_socks w)) (length before)
       /\ match r with
          | None => rest = [] /\ w_socks w' = w_socks w ++ (ready p <$> before)
          | Some err =>
              exists a rest', rest = a :: rest'
                /\ (w_socks w' = w_socks w ++ (ready p <$> before)
                    \/ exists sk, w_socks w' = w_socks w ++ (ready p <$> before) ++ [sk]
                          /\ sk_open sk = false /\ sk_laddr sk = a)
          end.
Proof.
  induction addrs as [|a addrs IH]; intros p p' w w' r; simpl.
  - unfold io_ret. intros [= <- <- <-]. repeat split.
    exists [], []. simpl. by rewrite !app_nil_r.
  - unfold io_bind. destruct (udpCreate p a w) as [[c|e] w1] eqn:Hc.
    + apply udpCreate_outcome in Hc as [-> Hw1].
      intros Hrest.
      apply IH in Hrest as (Ha & Hcfg & before & rest & -> & Hl & Hr).
      simpl in *. repeat split; try done.
      exists (a :: before), rest. split; [done|].
      change (ready {| UDPListenAddr := UDPListenAddr p;
                       Config_UDPBufferSize := Config_UDPBufferSize p;
                       udpListen := udpListen p ++ [length (w_socks w)] |})
        with (ready p) in Hr.
      rewrite Hw1 in Hr. rewrite Hw1, length_app, Nat.add_1_r in Hl. simpl in Hl.
      rewrite <- (assoc_L (++)) in Hl. simpl in Hl. split; [done|].
      destruct r as [e|].
      * destruct Hr as (a0 & rest' & -> & Hw). exists a0, rest'. split; [done|].
        destruct Hw as [->|(sk & -> & ? & ?)]; [left|right; exists sk];
          by rewrite <- ?(assoc_L (++)).
      * destruct Hr as [-> ->]. split; [done|]. by rewrite <- (assoc_L (++)).
    + unfold io_ret. intros [= <- <- <-].
      apply udpCreate_outcome in Hc as [_ Hw1].
      repeat split. exists [], (a :: addrs). simpl. rewrite app_nil_r.
      repeat split. exists a, addrs. split; [done|].
      rewrite app_nil_r. exact Hw1.
Qed.

(** X2. When [createUDPListeners] returns nil, it has created one socket
    per configured address, in the order of the addresses, each set up in
    full, and has appended their handles, in that order, to [p.udpListen];
    the listeners that were registered before are kept, and no other
    socket was touched.  With no address configured it does nothing. *)
Theorem createUDPListeners_success (p p' : Proxy) (w w' : world) :
  createUDPListeners p w = ((None, p'), w') ->
  w_socks w' = w_socks w ++ (ready p <$> UDPListenAddr p)
  /\ udpListen p' =
       udpListen p ++ seq (length (w_socks w)) (length (UDPListenAddr p))
  /\ UDPListenAddr p' = UDPListenAddr p
  /\ Config_UDPBufferSize p' = Config_UDPBufferSize p.
Proof.
  unfold createUDPListeners. intros Hrun.
  apply createUDPListeners_range_outcome in Hrun
    as (Ha & Hcfg & before & rest & Haddrs & Hl & -> & Hw).
  rewrite app_nil_r in Haddrs. subst before. done.
Qed.

(** X3. When [createUDPListeners] returns an error, the listeners of the
    addresses before the failing one are not rolled back: their sockets
    are still open and set up in full, and their handles have been
    appended to [p.udpListen]; the only other socket that may have been
    added is the closed one of the failing address. *)
Theorem createUDPListeners_failure_keeps_earlier (p p' : Proxy) (w w' : world)
    (err : error) :
  createUDPListeners p w = ((Some err, p'), w') ->
  exists before a rest,
    UDPListenAddr p = before ++ a :: rest
    /\ udpListen p' = udpListen p ++ seq (length (w_socks w)) (length before)
    /\ (forall i a', before !! i = Some a' ->
          w_socks w' !! (length (w_socks w) + i)%nat = Some (ready p a'))
    /\ (w_socks w' = w_socks w ++ (ready p <$> before)
        \/ exists sk, w_socks w' = w_socks w ++ (ready p <$> before) ++ [sk]
              /\ sk_open sk = false /\ sk_laddr sk = a).
Proof.
  unfold createUDPListeners. intros Hrun.
  apply createUDPListeners_range_outcome in Hrun
    as (Ha & Hcfg & before & rest & Haddrs & Hl & a & rest' & -> & Hw).
  exists before, a, rest'. repeat split; try done.
  intros i a' Hi.
  assert ((w_socks w ++ (ready p <$> before)) !! (length (w_socks w) + i)%nat
          = Some (ready p a')) as Hlook.
  { rewrite lookup_app_r by lia.
    replace (length (w_socks w) + i - length (w_socks w))%nat with i by lia.
    by rewrite list_lookup_fmap, Hi. }
  destruct Hw as [->|(sk & -> & _)]; [done|].
  rewrite (assoc_L (++)). rewrite lookup_app_l; [done|].
  by eapply lookup_lt_Some.
Qed.

End SetupOutcomes.

(** ** More on the responder and the handler *)

Section ResponderOutcomes.
Context `{DNSLib} `{NetLib}.

(** X4. [respondUDP] writes at most once, and never after a fault or an
    encode failure.  It writes exactly when the response is there, encoding
    succeeds and both type assertions pass; what it writes then is the
    encoded response, on the socket of the context, to the peer address of
    the context, with the local address of the context.  A failed or short
    write is not tried again. *)
Theorem respondUDP_writes_once (d : DNSContext) :
  (length (snd (respondUDP d)) <= 1)%nat
  /\ (forall wr, wr ∈ snd (respondUDP d) ->
        (exists resp, dc_Res d = Some resp /\ Pack resp = Ok (wr_bytes wr))
        /\ dc_Conn d = Conn_UDP (wr_conn wr)
        /\ dc_Addr d = Addr_UDP (wr_rAddr wr)
        /\ wr_localIP wr = dc_localIP d)
  /\ (snd (respondUDP d) <> [] <->
        exists resp b, dc_Res d = Some resp /\ Pack resp = Ok b /\ udp_typed d = true)
  /\ (is_fault (fst (respondUDP d)) = true -> snd (respondUDP d) = []).
Proof.
  unfold respondUDP, udp_typed.
  destruct (dc_Res d) as [resp|]; simpl;
    [destruct (Pack resp) as [b|err] eqn:Hp; simpl;
     [destruct (dc_Conn d) as [|c|], (dc_Addr d) as [|rAddr|]; simpl;
      try destruct (UDPWrite b c rAddr (dc_localIP d)) as [n e]; simpl|]|].
  all: split; [lia|split; [|split; [split|]]].
  all: try (intros wr Hin; apply elem_of_nil in Hin; contradiction).
  all: try done.
  all: try (intros (? & ? & ? & ? & ?); congruence).
  - intros wr Hin. apply list_elem_of_singleton in Hin as ->. simpl.
    split; [by exists resp|done].
  - intros _. by exists resp, b.
Qed.

(** X5. The context that [udpHandlePacket] builds for a packet that
    decodes, and hands to the resolver, passes both type assertions of
    [respondUDP].  As built it carries no response, and [respondUDP] on it
    faults; once the resolver has set a response, [respondUDP] does not
    fault, and whatever it writes goes out on the socket the packet was
    read from, to the address the packet came from, with the local address
    it arrived on. *)
Theorem handler_context_fits_responder (h : DNSContext -> handled) (packet : bytes)
    (localIP : IP) (remoteAddr : option UDPAddr) (c : UDPConn) (msg : Msg) :
  Unpack packet = Ok msg ->
  let d := request_context msg localIP remoteAddr c in
  fst (udpHandlePacket h packet localIP remoteAddr c) = hd_sent (h d)
  /\ udp_typed d = true
  /\ is_fault (fst (respondUDP d)) = true
  /\ forall resp,
       is_fault (fst (respondUDP (set_Res (Some resp) d))) = false
       /\ forall wr, wr ∈ snd (respondUDP (set_Res (Some resp) d)) ->
            wr_conn wr = c /\ wr_rAddr wr = remoteAddr /\ wr_localIP wr = localIP
            /\ Pack resp = Ok (wr_bytes wr).
Proof.
  intros Hu d. split; [|split; [done|split; [done|]]].
  - unfold udpHandlePacket. by rewrite Hu.
  - intros resp. unfold respondUDP. simpl.
    destruct (Pack resp) as [b|err]; simpl.
    + destruct (UDPWrite b c remoteAddr localIP) as [n e]. simpl.
      split; [done|]. intros wr Hin. by apply list_elem_of_singleton in Hin as ->.
    + split; [done|]. intros wr Hin. by apply elem_of_nil in Hin.
Qed.

End ResponderOutcomes.

(** ** More on the loop *)

Section LoopOutcomes.
Context `{DNSLib} `{NetLib}.

Ltac invert_step Hs :=
  match type of Hs with
  | step ?e ?s = Some ?s' =>
      let Hpc := fresh "Hpc" in
      destruct e as [|dg|i h| |]; simpl in Hs;
      [ unfold loop_step in Hs;
        destruct (pc s) as [| | | | |l|l pk|l pk|l|] eqn:Hpc; try discriminate Hs;
        [ | destruct (p_started s) eqn:?; simpl in Hs
          | | | | destruct (acquire (gate s)) as [g|] eqn:?; [|discriminate Hs]
          | | destruct (lc_err l) as [err|] eqn:? ]
      | unfold read_step in Hs;
        destruct (pc s) eqn:Hpc; try discriminate Hs
      | unfold task_step in Hs;
        let t := fresh "t" in
        destruct (tasks s !! i) as [t|] eqn:?; [|discriminate Hs];
        destruct (t_pc t) eqn:?;
        [ destruct (udpHandlePacket h (deref (mem s) (t_packet t)) (t_localIP t)
                      (t_remoteAddr t) (t_conn t)) as [out lines] eqn:?
        | | discriminate Hs ]
      | unfold stop_step in Hs;
        destruct (decide (p_rlocks s = 0%nat)); [|discriminate Hs];
        destruct (p_started s) eqn:?; [|discriminate Hs]
      | unfold close_step in Hs ];
      injection Hs as <-
  end.

Lemma size_inv_step (e : event) (s s' : state) :
  mem_inv s -> size_inv s -> step e s = Some s' -> size_inv s'.
Proof.
  unfold size_inv. intros (Hbuf & _) [Hlen Hrec] Hs.
  invert_step Hs; simpl; try done.
  - rewrite deref_insert_ne by lia. by rewrite deref_app_l.
  - rewrite deref_insert_eq, length_overwrite by done. split; [done|].
    apply Forall_app. split; [done|]. apply Forall_singleton.
    unfold stored. rewrite length_take. lia.
Qed.

Lemma size_inv_reachable (c : UDPConn) (max : nat) (s : state) :
  reachable c max s -> mem_inv s /\ size_inv s.
Proof.
  apply (reachable_invariant (fun x => mem_inv x /\ size_inv x)).
  - split; [apply mem_inv_init|]. unfold size_inv. simpl.
    split; [apply length_replicate|constructor].
  - intros e s0 s1 [Hm Hs] Hstep. split.
    + by eapply mem_inv_step.
    + by eapply size_inv_step.
Qed.

(** X6. In every state that can be reached, the read buffer [b] still has
    the [dns.MaxMsgSize] bytes of line 57, and every packet held by a
    handler goroutine, or being dispatched, has at least one byte and at
    most [dns.MaxMsgSize] bytes. *)
Theorem packet_size_bounded (c : UDPConn) (max : nat) (s : state) :
  reachable c max s ->
  length (deref (mem s) (buf s)) = MaxMsgSize
  /\ forall x, x ∈ packets s ++ pending s -> (1 <= length x <= MaxMsgSize)%nat.
Proof.
  intros Hr. destruct (size_inv_reachable _ _ _ Hr) as [(_ & _ & _ & Hpk) [Hlen Hrec]].
  split; [done|]. intros x Hx. rewrite Hpk in Hx.
  apply list_elem_of_In, List.filter_In in Hx as [Hin Hne].
  apply list_elem_of_In in Hin. rewrite Forall_forall in Hrec.
  specialize (Hrec x Hin). destruct x; [done|]. simpl in *. lia.
Qed.

Lemma alloc_inv_step (e : event) (s s' : state) :
  alloc_inv s -> step e s = Some s' -> alloc_inv s'.
Proof.
  unfold alloc_inv, allocated. intros (Hbuf & Hpk & Hlen & Hpcs) Hs.
  invert_step Hs; simpl; rewrite ?Hpc in *; simpl in *.
  all: try (by repeat split).
  - rewrite length_insert, length_app. simpl. repeat split; try done; lia.
  - rewrite fmap_app, length_app, Hpk. simpl.
    rewrite seq_app. simpl. subst pk. repeat split; try done. lia.
  - rewrite length_insert. destruct (len _ >? 0); simpl; repeat split; try done; lia.
  - rewrite length_insert. by erewrite fmap_packet_insert.
  - rewrite length_insert. by erewrite fmap_packet_insert.
Qed.

Lemma alloc_inv_reachable (c : UDPConn) (max : nat) (s : state) :
  reachable c max s -> alloc_inv s.
Proof.
  apply reachable_invariant.
  - unfold alloc_inv, allocated. simpl. repeat split.
  - apply alloc_inv_step.
Qed.

(** X7. In every state that can be reached, the buffers are distinct: [b]
    is the first buffer allocated, the goroutine launched as the [i]-th
    one holds the buffer allocated as the [i]-th one after [b], so that no
    two goroutines share a buffer and none shares [b]; and one buffer has
    been allocated per goroutine launched, plus the one of the datagram
    being dispatched: none for a read that returned no bytes. *)
Theorem one_buffer_per_goroutine (c : UDPConn) (max : nat) (s : state) :
  reachable c max s ->
  buf s = 0%nat
  /\ (forall i t, tasks s !! i = Some t -> t_packet t = S i)
  /\ NoDup (buf s :: (t_packet <$> tasks s))
  /\ length (mem s) = (1 + length (tasks s) + allocated s)%nat.
Proof.
  intros Hr. destruct (alloc_inv_reachable _ _ _ Hr) as (Hbuf & Hpk & Hlen & _).
  split; [done|]. split; [|split; [|done]].
  - intros i t Ht.
    assert ((t_packet <$> tasks s) !! i = Some (t_packet t)) as Hi
      by (by rewrite list_lookup_fmap, Ht).
    rewrite Hpk in Hi. apply lookup_seq in Hi as [Hi _]. lia.
  - rewrite Hbuf, Hpk. change (NoDup (seq 0 (S (length (tasks s))))).
    apply NoDup_seq.
Qed.

(** X8. A read that returns no bytes and no error is skipped: the loop
    goes back to the head of the [for] statement having launched no
    goroutine, taken no slot, allocated no buffer and changed no byte. *)
Theorem empty_read_skipped (c : UDPConn) (max : nat) (s : state) (dg : datagram) :
  reachable c max s ->
  pc s = AtReading ->
  dg_err dg = None ->
  stored (deref (mem s) (buf s)) (dg_payload dg) = [] ->
  exists s',
    run [Read dg; Loop] s = Some s'
    /\ pc s' = AtRLock
    /\ tasks s' = tasks s /\ gate s' = gate s /\ mem s' = mem s
    /\ p_rlocks s' = p_rlocks s /\ p_started s' = p_started s.
Proof.
  intros Hr Hpc Herr Hgot.
  destruct (all_inv_reachable _ _ _ Hr) as (_ & (Hbuf & _) & _).
  simpl. unfold read_step. rewrite Hpc. cbv zeta. rewrite Hgot. simpl.
  unfold loop_step. simpl. rewrite Herr. eexists. split; [reflexivity|]. simpl.
  repeat split. unfold overwrite. rewrite Hgot. simpl. rewrite drop_0.
  apply list_insert_id. unfold deref.
  destruct (lookup_lt_is_Some_2 (mem s) (buf s) Hbuf) as [x Hx]. by rewrite Hx.
Qed.

(** X9. A read that returns [n > 0] bytes and no error, while the gate has
    a free slot: the loop runs lines 67-78 without waiting and is back at
    the head of the [for] statement.  It has launched one goroutine, the
    last one, which holds a new buffer with exactly the bytes received,
    the addresses of the datagram and the socket of the loop; one more
    slot is held, and the goroutines launched before hold what they held. *)
Theorem good_read_dispatched (c : UDPConn) (max : nat) (s : state) (dg : datagram) :
  reachable c max s ->
  pc s = AtReading ->
  dg_err dg = None ->
  stored (deref (mem s) (buf s)) (dg_payload dg) <> [] ->
  (in_flight s < max)%nat ->
  let got := stored (deref (mem s) (buf s)) (dg_payload dg) in
  exists s',
    run [Read dg; Loop; Loop; Loop; Loop] s = Some s'
    /\ pc s' = AtRLock
    /\ tasks s' = tasks s ++
          [mkTask (length (mem s)) (dg_localIP dg) (dg_remoteAddr dg) (conn s) AtHandle]
    /\ packets s' = packets s ++ [got]
    /\ sem_held (gate s') = S (sem_held (gate s))
    /\ in_flight s' = S (in_flight s).
Proof.
  intros Hr Hpc Herr Hgot Hroom got.
  destruct (all_inv_reachable _ _ _ Hr)
    as ((Hmax & Hle & Hheld & _) & (_ & _ & _ & Hpk) & _).
  unfold at_go in Hheld. unfold pending in Hpk. rewrite Hpc in Hheld, Hpk.
  rewrite app_nil_r in Hpk.
  assert ((len got >? 0) = true) as Hpos.
  { rewrite <- nonempty_len. subst got. by destruct (stored _ _). }
  assert (acquire (gate s) = Some (mkSema (sem_max (gate s)) (S (sem_held (gate s)))))
    as Hacq.
  { unfold acquire. case_decide; [done|]. lia. }
  destruct (run [Read dg; Loop; Loop; Loop; Loop] s) as [s'|] eqn:Hrun.
  2: { simpl in Hrun. unfold read_step in Hrun. rewrite Hpc in Hrun.
       cbv zeta in Hrun. fold got in Hrun. cbn [lc_n] in Hrun. rewrite Hpos in Hrun.
       unfold loop_step in Hrun. simpl in Hrun. rewrite Hacq in Hrun. simpl in Hrun.
       rewrite Herr in Hrun. done. }
  exists s'. split; [done|].
  assert (reachable c max s') as Hr' by (by eapply reachable_run).
  destruct (all_inv_reachable _ _ _ Hr') as (_ & (_ & _ & _ & Hpk') & _).
  simpl in Hrun. unfold read_step in Hrun. rewrite Hpc in Hrun.
  cbv zeta in Hrun. fold got in Hrun. cbn [lc_n] in Hrun. rewrite Hpos in Hrun.
  unfold loop_step in Hrun. simpl in Hrun. rewrite Hacq in Hrun. simpl in Hrun.
  rewrite Herr in Hrun. injection Hrun as <-.
  unfold pending in Hpk'. simpl in Hpk'.
  rewrite app_nil_r, filter_nonempty_snoc, Hpos, <- Hpk in Hpk'.
  simpl. repeat split; try done.
  - by rewrite length_insert.
  - unfold in_flight. simpl. by rewrite in_flight_launch.
Qed.

(** X10. A read that reports an error ends the loop, whatever the error
    and whether or not bytes came with it: in no continuation does the
    loop call or leave [UDPRead] again.  With no bytes, the next statement
    of the loop is the return, and on the way only a line is logged: no
    goroutine is launched and no slot taken. *)
Theorem read_error_ends_loop (s : state) (dg : datagram) (e : error) :
  pc s = AtReading ->
  dg_err dg = Some e ->
  exists s1,
    read_step dg s = Some s1
    /\ (forall evs s2, run evs s1 = Some s2 ->
          pc s2 <> AtRead /\ pc s2 <> AtReading
          /\ h_received (hist s2) = h_received (hist s1)
          /\ forall dg', read_step dg' s2 = None)
    /\ (stored (deref (mem s) (buf s)) (dg_payload dg) = [] ->
          exists s2, loop_step s1 = Some s2
            /\ pc s2 = Returned
            /\ tasks s2 = tasks s /\ gate s2 = gate s /\ sent s2 = sent s
            /\ p_rlocks s2 = p_rlocks s).
Proof.
  intros Hpc Herr.
  set (got := stored (deref (mem s) (buf s)) (dg_payload dg)).
  set (l := mkLocals (len got) (dg_localIP dg) (dg_remoteAddr dg) (dg_err dg)).
  destruct (read_step dg s) as [s1|] eqn:Hread;
    [|unfold read_step in Hread; by rewrite Hpc in Hread].
  unfold read_step in Hread. rewrite Hpc in Hread. cbv zeta in Hread.
  fold got in Hread. fold l in Hread. injection Hread as Hs1.
  exists s1. split; [done|]. split.
  - intros evs s2 Hrun.
    assert (dispatching l s2 /\ h_received (hist s2) = h_received (hist s1)) as [Hd Hrec].
    { revert Hrun.
      apply (run_invariant
               (fun x => dispatching l x
                         /\ h_received (hist x) = h_received (hist s1))).
      - intros e0 s0 s0'. apply dispatching_step. simpl. by rewrite Herr.
      - split; [|done]. unfold dispatching. rewrite <- Hs1. simpl.
        match goal with |- context [if ?x then _ else _] => by destruct x end. }
    unfold dispatching in Hd. unfold read_step.
    destruct (pc s2); try done.
  - intros Hgot. rewrite <- Hs1. unfold loop_step. simpl.
    subst l. fold got. rewrite Hgot. simpl. rewrite Herr. eexists. by repeat split.
Qed.

(** X11. The gate is the throttle of the loop.  At [acquire], with as many
    goroutines in flight as the gate has slots, the loop cannot move and
    no read happens; with fewer, it goes on to launch the goroutine; and
    as soon as one goroutine has released its slot, the loop can take it. *)
Theorem saturated_gate_suspends_loop (c : UDPConn) (max : nat) (s : state)
    (l : locals) (packet : addr) :
  reachable c max s ->
  pc s = AtAcquire l packet ->
  (in_flight s = max -> loop_step s = None /\ forall dg, read_step dg s = None)
  /\ ((in_flight s < max)%nat ->
      exists s', loop_step s = Some s' /\ pc s' = AtGo l packet)
  /\ (forall i h t, tasks s !! i = Some t -> t_pc t = AtRelease ->
      exists s' s'', task_step i h s = Some s'
        /\ loop_step s' = Some s'' /\ pc s'' = AtGo l packet).
Proof.
  intros Hr Hpc.
  destruct (all_inv_reachable _ _ _ Hr) as ((Hmax & Hle & Hheld & _) & _).
  unfold at_go in Hheld. rewrite Hpc, Nat.add_0_r in Hheld.
  split; [|split].
  - intros Hfull. unfold loop_step, read_step, acquire. rewrite Hpc.
    case_decide; [lia|]. split; [reflexivity|]. intros dg. reflexivity.
  - intros Hroom. unfold loop_step, acquire. rewrite Hpc.
    case_decide; [|lia]. by eexists.
  - intros i h t Ht Htpc.
    destruct (in_flight_bounded c max s Hr) as (_ & _ & _ & _ & _ & Htask).
    specialize (Htask i h t Ht). rewrite Htpc in Htask.
    destruct Htask as (s' & Hstep & _ & Hrel).
    exists s'. pose proof Hstep as Hstep0.
    unfold task_step in Hstep. rewrite Ht, Htpc in Hstep.
    injection Hstep as Hs'.
    assert (pc s' = pc s /\ sem_max (gate s') = sem_max (gate s)) as [Hpc' Hmax'].
    { by rewrite <- Hs'. }
    unfold loop_step, acquire. rewrite Hpc', Hpc.
    case_decide; [|lia]. eexists. by repeat split.
Qed.

(** X12. The loop and its goroutines never write the running flag and
    never close the socket: in a run without the acts of shutdown the flag
    and the socket stay as they were, and in no run does a cleared flag
    become set again. *)
Theorem flag_and_socket_left_to_shutdown (evs : list event) (s s' : state) :
  run evs s = Some s' ->
  (p_started s = false -> p_started s' = false)
  /\ (Stop ∉ evs -> p_started s' = p_started s)
  /\ (CloseConn ∉ evs -> conn_open s' = conn_open s).
Proof.
  revert s. induction evs as [|e evs IH]; intros s; simpl.
  - by intros [= <-].
  - destruct (step e s) as [s1|] eqn:Hs; [|done]. intros Hrun.
    destruct (IH s1 Hrun) as (Hoff & Hflag & Hsock).
    assert ((p_started s = false -> p_started s1 = false)
            /\ (e <> Stop -> p_started s1 = p_started s)
            /\ (e <> CloseConn -> conn_open s1 = conn_open s)) as (H1 & H2 & H3).
    { clear -Hs. invert_step Hs; simpl; repeat split; try done; congruence. }
    split; [auto|]. split.
    + intros Hno. apply not_elem_of_cons in Hno as [Hne Hno].
      rewrite Hflag by done. auto.
    + intros Hno. apply not_elem_of_cons in Hno as [Hne Hno].
      rewrite Hsock by done. auto.
Qed.

(** X13. For a packet that decodes, the error that the resolver returns is
    only logged: two resolvers that send the same datagrams leave the
    goroutine, what was sent, the loop, the gate, the buffers, the flag and
    the lock in the same state, whatever errors they report; the goroutine
    goes on to release its slot. *)
Theorem resolver_error_only_logged (s : state) (i : nat) (t : task) (msg : Msg)
    (h1 h2 : DNSContext -> handled) :
  tasks s !! i = Some t ->
  t_pc t = AtHandle ->
  Unpack (deref (mem s) (t_packet t)) = Ok msg ->
  let d := request_context msg (t_localIP t) (t_remoteAddr t) (t_conn t) in
  hd_sent (h1 d) = hd_sent (h2 d) ->
  exists s1 s2,
    task_step i h1 s = Some s1 /\ task_step i h2 s = Some s2
    /\ sent s1 = sent s ++ (pair i <$> hd_sent (h1 d))
    /\ tasks s1 = <[i := set_tpc AtRelease t]> (tasks s)
    /\ sent s2 = sent s1 /\ tasks s2 = tasks s1
    /\ pc s1 = pc s /\ gate s1 = gate s /\ mem s1 = mem s /\ hist s1 = hist s
    /\ p_started s1 = p_started s /\ p_rlocks s1 = p_rlocks s
    /\ pc s2 = pc s /\ gate s2 = gate s /\ mem s2 = mem s /\ hist s2 = hist s
    /\ p_started s2 = p_started s /\ p_rlocks s2 = p_rlocks s.
Proof.
  intros Ht Hpc Hu d Hsame. unfold task_step. rewrite Ht, Hpc.
  unfold udpHandlePacket. rewrite Hu. fold (request_context msg (t_localIP t)
    (t_remoteAddr t) (t_conn t)). fold d.
  eexists _, _. split; [reflexivity|]. split; [reflexivity|]. simpl.
  rewrite Hsame. by repeat split.
Qed.

(** X14. The loop holds the read lock across the flag check only: never
    more than one read lock is held, and none is held while the loop is
    inside [UDPRead], copies, waits at [acquire], launches the goroutine or
    tests the error. *)
Theorem read_lock_not_held_while_blocked (c : UDPConn) (max : nat) (s : state) :
  reachable c max s ->
  (p_rlocks s <= 1)%nat
  /\ (pc s <> AtCheck -> pc s <> AtRUnlock -> pc s <> Returned -> p_rlocks s = 0%nat).
Proof.
  intros Hr. destruct (all_inv_reachable _ _ _ Hr) as (_ & _ & (Hlock & _) & _).
  destruct (pc s); split; try lia; try done.
Qed.

End LoopOutcomes.

(** ** The further theorems at runs of the small instances *)

(** X1 at an address on a network where every step succeeds. *)
Lemma udpCreate_outcome_witness :
  exists w',
    @udpCreate quiet_net demo_proxy (Some peer) empty_world = (Ok 0%nat, w')
    /\ w_socks w' = [mkSocket (Some peer) true (Some 4096) true].
Proof.
  eexists. split; [vm_compute; reflexivity|].
  apply (@udpCreate_outcome quiet_net demo_proxy (Some peer) empty_world _ (Ok 0%nat)).
  vm_compute. reflexivity.
Defined.

(** X2 at two addresses. *)
Lemma createUDPListeners_success_witness :
  exists p' w',
    @createUDPListeners quiet_net twin_proxy empty_world = ((None, p'), w')
    /\ udpListen p' = [0; 1]%nat.
Proof.
  eexists _, _. split; [vm_compute; reflexivity|].
  edestruct (@createUDPListeners_success quiet_net twin_proxy)
    with (w := empty_world) as (_ & Hl & _).
  - vm_compute. reflexivity.
  - exact Hl.
Defined.

(** X3 at two addresses of which the second cannot be bound: the socket of
    the first stays open and registered. *)
Lemma createUDPListeners_failure_keeps_earlier_witness :
  exists p' w',
    @createUDPListeners crowded_net twin_proxy empty_world
      = ((Some (Decorate bind_error "couldn't listen to UDP socket"), p'), w')
    /\ udpListen p' = [0%nat]
    /\ w_socks w' = [mkSocket (Some peer) true (Some 4096) true].
Proof.
  eexists _, _. split; [vm_compute; reflexivity|].
  edestruct (@createUDPListeners_failure_keeps_earlier crowded_net twin_proxy)
    with (w := empty_world)
    as (before & a & rest & Haddrs & Hl & Hkept & Hw).
  - vm_compute. reflexivity.
  - split; reflexivity.
Defined.

(** X5 at a query of twelve bytes. *)
Lemma handler_context_fits_responder_witness :
  is_fault (fst (@respondUDP demo_dns quiet_net
                   (@set_Res demo_dns (Some query12)
                      (@request_context demo_dns query12 [] (Some peer) 0%nat))))
  = false.
Proof.
  apply (@handler_context_fits_responder demo_dns quiet_net echo query12 []
           (Some peer) 0%nat query12).
  reflexivity.
Defined.

(** X6 after a datagram longer than the read buffer: sixteen bytes of it
    reach the goroutine. *)
Lemma packet_size_bounded_witness :
  exists s,
    demo_run (to_read ++ [Read (mkDatagram (replicate 20 Byte.x01) [] None None)]
              ++ dispatch) = Some s
    /\ length <$> @packets s = [16%nat]
    /\ forall x, x ∈ @packets s ++ @pending s -> (1 <= length x <= 16)%nat.
Proof.
  eexists. split; [vm_compute; reflexivity|]. split; [reflexivity|].
  apply (@packet_size_bounded demo_dns quiet_net 0%nat 1%nat).
  exists (to_read ++ [Read (mkDatagram (replicate 20 Byte.x01) [] None None)]
          ++ dispatch).
  vm_compute. reflexivity.
Defined.

(** X7 after one datagram was dispatched and a second one copied. *)
Lemma one_buffer_per_goroutine_witness :
  exists s,
    demo_run (to_read ++ [Read query_dg] ++ dispatch ++ [Loop] ++
              to_read ++ [Read query_dg; Loop]) = Some s
    /\ length (mem s) = 3%nat
    /\ NoDup (buf s :: (t_packet <$> tasks s)).
Proof.
  eexists. split; [vm_compute; reflexivity|]. split; [reflexivity|].
  apply (@one_buffer_per_goroutine demo_dns quiet_net 0%nat 1%nat).
  exists (to_read ++ [Read query_dg] ++ dispatch ++ [Loop] ++
          to_read ++ [Read query_dg; Loop]).
  vm_compute. reflexivity.
Defined.

(** X8 at a read that yields nothing. *)
Lemma empty_read_skipped_witness :
  exists s s',
    demo_run to_read = Some s
    /\ @run demo_dns quiet_net [Read empty_dg; Loop] s = Some s'
    /\ pc s' = AtRLock /\ tasks s' = tasks s.
Proof.
  eexists.
  edestruct (@empty_read_skipped demo_dns quiet_net 0%nat 1%nat) with (dg := empty_dg)
    as (s' & Hrun & Hpc & Htasks & _).
  - exists to_read. vm_compute. reflexivity.
  - vm_compute. reflexivity.
  - reflexivity.
  - vm_compute. reflexivity.
  - exists s'. split; [vm_compute; reflexivity|].
    split; [exact Hrun|]. split; [exact Hpc|exact Htasks].
Defined.

(** X9 at a query. *)
Lemma good_read_dispatched_witness :
  exists s s',
    demo_run to_read = Some s
    /\ @run demo_dns quiet_net [Read query_dg; Loop; Loop; Loop; Loop] s = Some s'
    /\ pc s' = AtRLock /\ packets s' = [query12].
Proof.
  eexists.
  edestruct (@good_read_dispatched demo_dns quiet_net 0%nat 1%nat) with (dg := query_dg)
    as (s' & Hrun & Hpc & _ & Hpk & _).
  - exists to_read. vm_compute. reflexivity.
  - vm_compute. reflexivity.
  - reflexivity.
  - vm_compute. discriminate.
  - vm_compute. lia.
  - exists s'. split; [vm_compute; reflexivity|].
    split; [exact Hrun|]. split; [exact Hpc|exact Hpk].
Defined.

(** X10 at a read on a closed socket. *)
Lemma read_error_ends_loop_witness :
  exists s,
    demo_run to_read = Some s
    /\ exists s1 s2,
         @read_step closed_dg s = Some s1
         /\ @loop_step quiet_net s1 = Some s2
         /\ pc s2 = Returned /\ tasks s2 = [].
Proof.
  eexists. split; [vm_compute; reflexivity|].
  match goal with
  | |- exists s1 s2, read_step _ ?s0 = _ /\ _ =>
      edestruct (@read_error_ends_loop demo_dns quiet_net s0 closed_dg closed_error)
        as (s1 & Hread & _ & Hnow)
  end.
  - reflexivity.
  - reflexivity.
  - edestruct Hnow as (s2 & Hstep & Hpc & Htasks & _).
    + vm_compute. reflexivity.
    + exists s1, s2.
      split; [exact Hread|]. split; [exact Hstep|]. split; [exact Hpc|exact Htasks].
Defined.

(** X11 at a gate of one slot whose slot is taken. *)
Lemma saturated_gate_suspends_loop_witness :
  exists s,
    demo_run (to_read ++ [Read query_dg] ++ dispatch ++ [Loop] ++
              to_read ++ [Read query_dg; Loop]) = Some s
    /\ in_flight s = 1%nat
    /\ @loop_step quiet_net s = None.
Proof.
  eexists. split; [vm_compute; reflexivity|]. split; [reflexivity|].
  eapply (@saturated_gate_suspends_loop demo_dns quiet_net 0%nat 1%nat).
  - exists (to_read ++ [Read query_dg] ++ dispatch ++ [Loop] ++
            to_read ++ [Read query_dg; Loop]).
    vm_compute. reflexivity.
  - vm_compute. reflexivity.
  - vm_compute. reflexivity.
Defined.

(** X12 at a run of the loop and one goroutine. *)
Lemma flag_and_socket_left_to_shutdown_witness :
  exists s,
    demo_run (to_read ++ [Read query_dg] ++ dispatch ++ [Task 0%nat echo]) = Some s
    /\ p_started s = true /\ conn_open s = true.
Proof.
  eexists. split; [vm_compute; reflexivity|].
  edestruct (@flag_and_socket_left_to_shutdown demo_dns quiet_net
               (to_read ++ [Read query_dg] ++ dispatch ++ [Task 0%nat echo])
               (@init demo_dns 0%nat 1%nat))
    as (_ & Hflag & Hsock).
  - vm_compute. reflexivity.
  - split.
    + rewrite Hflag; [reflexivity|]. unfold to_read, dispatch. simpl.
      repeat (apply not_elem_of_cons; split; [discriminate|]). apply not_elem_of_nil.
    + rewrite Hsock; [reflexivity|]. unfold to_read, dispatch. simpl.
      repeat (apply not_elem_of_cons; split; [discriminate|]). apply not_elem_of_nil.
Defined.

(** X13 at a resolver that answers and one that answers and reports an
    error. *)
Lemma resolver_error_only_logged_witness :
  exists s,
    demo_run (to_read ++ [Read query_dg] ++ dispatch) = Some s
    /\ exists s1 s2,
         @task_step demo_dns 0%nat echo s = Some s1
         /\ @task_step demo_dns 0%nat grumbling_echo s = Some s2
         /\ sent s1 = [(0%nat, query12)] /\ sent s2 = sent s1.
Proof.
  eexists. split; [vm_compute; reflexivity|].
  match goal with
  | |- exists s1 s2, task_step _ _ ?s0 = _ /\ _ =>
      edestruct (@resolver_error_only_logged demo_dns s0 0%nat)
        with (h1 := echo) (h2 := grumbling_echo)
        as (s1 & s2 & Hs1 & Hs2 & Hsent & _ & Hsame & _)
  end.
  - vm_compute. reflexivity.
  - vm_compute. reflexivity.
  - vm_compute. reflexivity.
  - reflexivity.
  - exists s1, s2.
    split; [exact Hs1|]. split; [exact Hs2|]. split; [exact Hsent|exact Hsame].
Defined.

(** X14 inside [UDPRead]. *)
Lemma read_lock_not_held_while_blocked_witness :
  exists s, demo_run to_read = Some s /\ pc s = AtReading /\ p_rlocks s = 0%nat.
Proof.
  eexists. split; [vm_compute; reflexivity|]. split; [reflexivity|].
  apply (@read_lock_not_held_while_blocked demo_dns quiet_net 0%nat 1%nat).
  - exists to_read. vm_compute. reflexivity.
  - discriminate.
  - discriminate.
  - discriminate.
Defined.
